(** * message_rag: retrieval-and-answer pipeline and its supporting utilities

    A shallow embedding of the Python sources
      - [src/handlers/error_handler.py]  (retry decorator)
      - [src/utils/rate_limiter.py]      (sliding-window rate limiter)
      - [src/utils/cache.py]             (file-based response cache)
      - [src/rag/vector_store.py]        (vector store gateway)
      - [src/rag/message_processor.py]   (message validation and ingestion)
      - [src/rag/query_engine.py]        (query engine)
      - [src/utils/token_counter.py]     (token estimates and chunking)
    followed by the properties of the specification, each one proved or
    refuted on these definitions, and by further properties of the code.
    The index library (ChromaDB) and the file system are not part of the
    sources: the collection is a finite map with the library's [add], and
    a cache file is what [open] and [json.load] make of it.

    Conventions.  Python [float] and [int] values that are compared or
    subtracted are rationals ([Q]) resp. integers ([Z]); a Python [str] is a
    [string], one [ascii] per character; a Python exception is a value of
    [exn] carried by the [Raise] constructor of [outcome]; mutable objects
    are passed explicitly as state; [time.time()] readings are taken from an
    explicit logical clock. *)

From Stdlib Require Import Ascii String QArith Lqa Sorted.
From stdpp Require Import gmap strings list fin_maps pretty.

Set Warnings "-register-all".
Local Open Scope Z_scope.

(** ** Python values, exceptions and outcomes *)

(** The values [json.load] produces, which are also the values of a
    [dict[str, Any]]: [None], booleans, numbers, strings, lists and
    dictionaries (insertion-ordered, first binding of a key is the live
    one).  A number is a [float] ([VNum], a finite one, as a rational) or
    an [int] ([VInt], of any size); the literals [NaN] and [Infinity] that
    [json.load] also reads are not values of this model. *)
Inductive value : Type :=
  | VNone
  | VBool (b : bool)
  | VNum (q : Q)
  | VInt (n : Z)
  | VStr (s : string)
  | VList (l : list value)
  | VDict (d : list (string * value)).

(** The exception classes the sources raise or catch, with the builtin ones
    they can meet.  [APIError], [RateLimitError] and [TimeoutError] are the
    classes of [error_handler.py]; [ChromaError] and [DuplicateIDError] are
    those of the index library. *)
Inductive exc_class : Type :=
  | Exception
  | APIError
  | RateLimitError
  | TimeoutError
  | LookupError
  | KeyError
  | IndexError
  | ValueError
  | JSONDecodeError
  | TypeError
  | AttributeError
  | UnicodeError
  | UnicodeDecodeError
  | ArithmeticError
  | OverflowError
  | RuntimeError
  | RecursionError
  | ChromaError
  | DuplicateIDError.

Definition exc_class_eqb (c d : exc_class) : bool :=
  match c, d with
  | Exception, Exception | APIError, APIError
  | RateLimitError, RateLimitError | TimeoutError, TimeoutError
  | LookupError, LookupError | KeyError, KeyError | IndexError, IndexError
  | ValueError, ValueError | JSONDecodeError, JSONDecodeError
  | TypeError, TypeError | AttributeError, AttributeError
  | UnicodeError, UnicodeError | UnicodeDecodeError, UnicodeDecodeError
  | ArithmeticError, ArithmeticError | OverflowError, OverflowError
  | RuntimeError, RuntimeError | RecursionError, RecursionError
  | ChromaError, ChromaError | DuplicateIDError, DuplicateIDError => true
  | _, _ => false
  end.

(** The direct base class ([class RateLimitError(APIError)], ...). *)
Definition base_class (c : exc_class) : option exc_class :=
  match c with
  | Exception => None
  | APIError => Some Exception
  | RateLimitError => Some APIError
  | TimeoutError => Some APIError
  | LookupError => Some Exception
  | KeyError => Some LookupError
  | IndexError => Some LookupError
  | ValueError => Some Exception
  | JSONDecodeError => Some ValueError
  | TypeError => Some Exception
  | AttributeError => Some Exception
  | UnicodeError => Some ValueError
  | UnicodeDecodeError => Some UnicodeError
  | ArithmeticError => Some Exception
  | OverflowError => Some ArithmeticError
  | RuntimeError => Some Exception
  | RecursionError => Some RuntimeError
  | ChromaError => Some Exception
  | DuplicateIDError => Some ChromaError
  end.

(** [issubclass c d], walking up the (depth at most 3) class chain. *)
Fixpoint issubclass_fuel (fuel : nat) (c d : exc_class) : bool :=
  exc_class_eqb c d ||
  match fuel with
  | O => false
  | S fuel' =>
      match base_class c with
      | Some b => issubclass_fuel fuel' b d
      | None => false
      end
  end.

Definition issubclass : exc_class → exc_class → bool := issubclass_fuel 3.

Record exn : Type := mk_exn { exn_class : exc_class; exn_message : string }.

(** [isinstance(e, classes)] for a tuple of classes: what an
    [except classes as e] clause tests. *)
Definition isinstance (e : exn) (classes : list exc_class) : bool :=
  existsb (issubclass (exn_class e)) classes.

Inductive outcome (A : Type) : Type :=
  | Return (a : A)
  | Raise (e : exn).
Arguments Return {A} a.
Arguments Raise {A} e.

(** The newline character of Python's ["\n"]. *)
Definition nl : string := String "010"%char "".

(** [sep.join(parts)] on strings. *)
Fixpoint join (sep : string) (parts : list string) : string :=
  match parts with
  | [] => ""
  | [p] => p
  | p :: rest => p +:+ sep +:+ join sep rest
  end.

(** [s.startswith(prefix)] *)
Fixpoint startswith (prefix s : string) : bool :=
  match prefix, s with
  | EmptyString, _ => true
  | String a prefix', String b s' => Ascii.eqb a b && startswith prefix' s'
  | String _ _, EmptyString => false
  end.

(** [needle in hay] on strings: [needle] starts at some position of
    [hay]. *)
Fixpoint str_contains (needle hay : string) : bool :=
  startswith needle hay ||
  match hay with
  | String _ rest => str_contains needle rest
  | EmptyString => false
  end.

(** Straight-line code that may raise. *)
#[global] Instance outcome_ret : MRet outcome := λ A a, Return a.
#[global] Instance outcome_bind : MBind outcome :=
  λ A B f m, match m with Return a => f a | Raise e => Raise e end.

(** [range(n)] *)
Definition range (n : Z) : list Z := Z.of_nat <$> seq 0 (Z.to_nat n).

(** [a > b] and [a < b] on numbers. *)
Definition Qgtb (a b : Q) : bool := negb (Qle_bool a b).
Definition Qltb (a b : Q) : bool := negb (Qle_bool b a).

(** Code that runs against a mutable object of type [St] and may raise:
    the state is threaded through, and an exception cuts the rest of the
    block short, keeping the state reached so far. *)
Definition prog (St A : Type) : Type := St → outcome A * St.

#[global] Instance prog_ret {St} : MRet (prog St) :=
  λ A a s, (Return a, s).
#[global] Instance prog_bind {St} : MBind (prog St) :=
  λ A B f m s,
    match m s with
    | (Return a, s') => f a s'
    | (Raise e, s') => (Raise e, s')
    end.

(** A statement that updates the object in place. *)
Definition modify {St} (f : St → St) : prog St unit := λ s, (Return tt, f s).

(** A pure computation that may raise, run inside a block. *)
Definition lift {St A} (r : outcome A) : prog St A := λ s, (r, s).

(** [try: body  except classes: handler] *)
Definition try_except {St A} (body : prog St A) (classes : list exc_class)
    (handler : prog St A) : prog St A :=
  λ s,
    match body s with
    | (Return a, s') => (Return a, s')
    | (Raise e, s') =>
        if isinstance e classes then handler s' else (Raise e, s')
    end.

(** [d[key]] on a dictionary's bindings, [None] standing for [KeyError]. *)
Fixpoint dict_lookup (key : string) (d : list (string * value)) : option value :=
  match d with
  | [] => None
  | (k, v) :: rest => if String.eqb k key then Some v else dict_lookup key rest
  end.

(** [data[key]] for a string key: only a dictionary can be subscripted
    that way; a missing key is a [KeyError], any other value a
    [TypeError]. *)
Definition getitem (data : value) (key : string) : outcome value :=
  match data with
  | VDict d =>
      match dict_lookup key d with
      | Some v => Return v
      | None => Raise (mk_exn KeyError key)
      end
  | VList _ => Raise (mk_exn TypeError "list indices must be integers or slices, not str")
  | VStr _ => Raise (mk_exn TypeError "string indices must be integers, not 'str'")
  | VNone | VBool _ | VNum _ | VInt _ =>
      Raise (mk_exn TypeError "object is not subscriptable")
  end.

(** ** [src/handlers/error_handler.py] *)
Module ErrorHandler.

Section Wrapper.
(** The wrapped callable: it may read and change a state of its own (a
    counter, a connection, ...) and either returns or raises. *)
Context {S A : Type}.
Variable func : S → outcome A * S.

(** What the wrapper can touch: the callable's state, and the process
    clock through [time.sleep]; [calls] counts the invocations of [func]
    and [slept] records the argument of every [time.sleep]. *)
Record world : Type := mk_world {
  fstate : S;
  calls : nat;
  slept : list Q
}.

Definition invoke (w : world) : outcome A * world :=
  let '(r, s') := func (fstate w) in
  (r, {| fstate := s'; calls := Datatypes.S (calls w); slept := slept w |}).

Definition time_sleep (d : Q) (w : world) : world :=
  {| fstate := fstate w; calls := calls w; slept := slept w ++ [d] |}.

(** The body of [wrapper]: the [for attempt in range(max_retries + 1)]
    loop over the attempts that remain, then the fall-through statements
    after the loop.  The wrapper returns [Some v] for [return func(...)]
    and [None] when it falls off the end of the function. *)
Fixpoint attempts_loop (max_retries : Z) (backoff : Q)
    (exceptions : list exc_class) (attempts : list Z)
    (current_delay : Q) (last_exception : option exn) (w : world)
    : outcome (option A) * world :=
  match attempts with
  | [] =>
      match last_exception with
      | Some e => (Raise e, w)
      | None => (Return None, w)
      end
  | attempt :: rest =>
      match invoke w with
      | (Return v, w') => (Return (Some v), w')
      | (Raise e, w') =>
          if isinstance e exceptions then
            if attempt <? max_retries then
              attempts_loop max_retries backoff exceptions rest
                (current_delay * backoff)%Q (Some e)
                (time_sleep current_delay w')
            else (Raise e, w')
          else (Raise e, w')
      end
  end.

Definition retry_on_error (max_retries : Z) (delay backoff : Q)
    (exceptions : list exc_class) (w : world)
    : outcome (option A) * world :=
  attempts_loop max_retries backoff exceptions
    (range (max_retries + 1)) delay None w.

(** The callable's state after [k] invocations. *)
Definition state_after (k : nat) (s : S) : S :=
  Nat.iter k (λ s', (func s').2) s.

(** "The operation always fails with a failure kind in the retryable
    set", whatever its state. *)
Definition always_fails_with (exceptions : list exc_class) : Prop :=
  ∀ s, ∃ e, (func s).1 = Raise e ∧ isinstance e exceptions = true.

End Wrapper.

End ErrorHandler.

(** ** [src/utils/rate_limiter.py] *)
Module RateLimiter.

(** The attributes of a [RateLimiter]; [requests] is the deque, oldest
    timestamp first. *)
Record limiter : Type := mk_limiter {
  requests_per_minute : Z;
  window_size : Q;
  requests : list Q
}.

(** [RateLimiter.__init__] *)
Definition init (requests_per_minute : Z) : limiter :=
  {| requests_per_minute := requests_per_minute;
     window_size := 60;
     requests := [] |}.

(** The limiter together with the clock [time.time()] reads. *)
Record world : Type := mk_world {
  clock : Q;
  self : limiter
}.

Definition set_requests (reqs : list Q) (w : world) : world :=
  {| clock := clock w;
     self := {| requests_per_minute := requests_per_minute (self w);
                window_size := window_size (self w);
                requests := reqs |} |}.

(** Time passing between two calls. *)
Definition advance (dt : Q) (w : world) : world :=
  {| clock := (clock w + dt)%Q; self := self w |}.

(** [time.sleep(secs)] suspends for at least [secs]; [over] is by how much
    the suspension exceeds the time asked for. *)
Definition time_sleep (secs over : Q) (w : world) : world :=
  advance (secs + over)%Q w.

(** [while self.requests and now - self.requests[0] > self.window_size:
         self.requests.popleft()] *)
Fixpoint purge (now window : Q) (reqs : list Q) : list Q :=
  match reqs with
  | [] => []
  | oldest :: rest =>
      if Qgtb (now - oldest) window then purge now window rest else reqs
  end.

(** [RateLimiter.acquire].  [over] is the overshoot of the one
    [time.sleep] the call may make.  [self.requests[0]] on an empty deque
    raises [IndexError]. *)
Definition acquire (over : Q) (w : world) : outcome unit * world :=
  let window := window_size (self w) in
  let now := clock w in
  let w := set_requests (purge now window (requests (self w))) w in
  if Z.of_nat (length (requests (self w))) >=? requests_per_minute (self w) then
    match requests (self w) with
    | [] => (Raise (mk_exn IndexError "deque index out of range"), w)
    | oldest :: _ =>
        let sleep_time := (window - (now - oldest))%Q in
        let w := if Qgtb sleep_time 0 then time_sleep sleep_time over w else w in
        let now := clock w in
        let w := set_requests (purge now window (requests (self w))) w in
        (Return tt, set_requests (requests (self w) ++ [now]) w)
    end
  else
    (Return tt, set_requests (requests (self w) ++ [now]) w).

(** The dictionary [get_current_usage] returns. *)
Record usage : Type := mk_usage {
  current_requests : nat;
  max_requests : Z
}.

(** [RateLimiter.get_current_usage]: prunes, then reports. *)
Definition get_current_usage (w : world) : usage * world :=
  let w := set_requests
             (purge (clock w) (window_size (self w)) (requests (self w))) w in
  ({| current_requests := length (requests (self w));
      max_requests := requests_per_minute (self w) |}, w).

(** [RateLimiter.get_remaining_capacity] *)
Definition get_remaining_capacity (w : world) : (Z * Z) * world :=
  let '(u, w) := get_current_usage w in
  ((max_requests u - Z.of_nat (current_requests u), max_requests u), w).

(** [acquire] called [n] times in a row with no time passing between the
    calls, every sleep overshooting by [over]; stops at the first call
    that raises. *)
Fixpoint acquire_many (n : nat) (over : Q) (w : world) : outcome unit * world :=
  match n with
  | O => (Return tt, w)
  | Datatypes.S n' =>
      match acquire over w with
      | (Return _, w') => acquire_many n' over w'
      | (Raise e, w') => (Raise e, w')
      end
  end.

End RateLimiter.

(** ** [src/utils/cache.py] *)
Module Cache.

(** A file of the cache directory, as [open] and [json.load] see it:
    text that is not JSON, the document it parses to, or a file that
    cannot be loaded for another reason, with the exception that it
    meets: [UnicodeDecodeError] for bytes that are not text in the
    default encoding, [RecursionError] for a document nested too deeply.
    [json.dump] followed by [json.load] gives back the dumped value. *)
Inductive file : Type :=
  | NotJson (text : string)
  | JsonDoc (v : value)
  | Unloadable (e : exn).

(** A [ResponseCache]: its time-to-live and the [*.json] files of its
    directory, by file name. *)
Record ResponseCache : Type := mk_cache {
  ttl_seconds : Z;
  cache_dir : gmap string file
}.

(** [with open(path) as f: json.load(f)] *)
Definition json_load (f : file) : outcome value :=
  match f with
  | NotJson _ => Raise (mk_exn JSONDecodeError "Expecting value")
  | JsonDoc v => Return v
  | Unloadable e => Raise e
  end.

(** The least magnitude of an [int] that has no [float]: from
    [2^1024 - 2^970] on, the nearest double would be [2^1024]. *)
Definition float_limit : Z := 2 ^ 1024 - 2 ^ 970.

(** [float(n)], the conversion Python makes of an [int] operand of a
    [float] operation. *)
Definition float_of_int (n : Z) : outcome Q :=
  if float_limit <=? Z.abs n
  then Raise (mk_exn OverflowError "int too large to convert to float")
  else Return (inject_Z n).

(** [time.time() - v]: defined on floats, on integers that convert to a
    float, and on booleans which Python counts as 0 and 1. *)
Definition time_minus (now : Q) (v : value) : outcome Q :=
  match v with
  | VNum q => Return (now - q)%Q
  | VInt n => x ← float_of_int n; Return (now - x)%Q
  | VBool b => Return (now - (if b then 1 else 0))%Q
  | _ => Raise (mk_exn TypeError "unsupported operand type(s) for -")
  end.

(** [cache_path.unlink()] *)
Definition unlink (path : string) : prog ResponseCache unit :=
  modify (λ c, {| ttl_seconds := ttl_seconds c;
                  cache_dir := delete path (cache_dir c) |}).

(** [with open(cache_path, "w") as f: json.dump(data, f)] *)
Definition write_json (path : string) (data : value) : prog ResponseCache unit :=
  modify (λ c, {| ttl_seconds := ttl_seconds c;
                  cache_dir := <[path := JsonDoc data]> (cache_dir c) |}).

Section Hashed.
(** [hashlib.sha256(s.encode()).hexdigest()] *)
Variable sha256_hexdigest : string → string.

Definition _get_cache_key (prompt model : string) : string :=
  sha256_hexdigest (model +:+ ":" +:+ prompt).

Definition _get_cache_path (cache_key : string) : string :=
  cache_key +:+ ".json".

(** [ResponseCache.get]; [now] is the reading of [time.time()].  The
    result is the Python value returned: [VNone] for [None]. *)
Definition get (prompt model : string) (now : Q) : prog ResponseCache value :=
  λ c,
    let cache_key := _get_cache_key prompt model in
    let cache_path := _get_cache_path cache_key in
    match cache_dir c !! cache_path with
    | None => (Return VNone, c)
    | Some f =>
        try_except
          (data ← lift (json_load f);
           timestamp ← lift (getitem data "timestamp");
           age ← lift (time_minus now timestamp);
           if Qgtb age (inject_Z (ttl_seconds c)) then
             unlink cache_path;; mret VNone
           else
             lift (getitem data "response"))
          [JSONDecodeError; KeyError]
          (unlink cache_path;; mret VNone)
          c
    end.

(** [ResponseCache.set] *)
Definition set (prompt model response : string) (now : Q) : prog ResponseCache unit :=
  let cache_key := _get_cache_key prompt model in
  let cache_path := _get_cache_path cache_key in
  let data := VDict [("timestamp", VNum now);
                     ("prompt", VStr prompt);
                     ("model", VStr model);
                     ("response", VStr response)] in
  write_json cache_path data.

End Hashed.

(** The [for cache_file in self.cache_dir.glob("*.json")] loop of
    [clear], over the files still to visit. *)
Fixpoint clear_loop (files : list (string * file)) (count : nat)
    : prog ResponseCache nat :=
  match files with
  | [] => mret count
  | (cache_file, _) :: rest =>
      unlink cache_file;; clear_loop rest (S count)
  end.

(** [ResponseCache.clear]; the directory is listed in some order,
    [map_to_list]'s. *)
Definition clear : prog ResponseCache nat :=
  λ c, clear_loop (map_to_list (cache_dir c)) 0%nat c.

(** The loop of [clear_expired].  Each file is read when it is visited;
    the loop deletes no file but the one it is visiting, so a file is
    read as it was listed. *)
Fixpoint clear_expired_loop (current_time : Q) (files : list (string * file))
    (count : nat) : prog ResponseCache nat :=
  match files with
  | [] => mret count
  | (cache_file, f) :: rest =>
      count ← (λ c,
        try_except
          (data ← lift (json_load f);
           timestamp ← lift (getitem data "timestamp");
           age ← lift (time_minus current_time timestamp);
           if Qgtb age (inject_Z (ttl_seconds c)) then
             unlink cache_file;; mret (S count)
           else mret count)
          [JSONDecodeError; KeyError]
          (unlink cache_file;; mret (S count))
          c);
      clear_expired_loop current_time rest count
  end.

(** [ResponseCache.clear_expired]; [current_time] is the reading of
    [time.time()]. *)
Definition clear_expired (current_time : Q) : prog ResponseCache nat :=
  λ c, clear_expired_loop current_time (map_to_list (cache_dir c)) 0%nat c.

End Cache.

(** ** [src/rag/vector_store.py] *)
Module VectorStore.

Definition embedding : Type := list Q.

(** A metadata dictionary ([dict[str, Any]]). *)
Definition metadata_dict : Type := list (string * value).

(** What the index keeps under one identifier. *)
Record embedded_record : Type := mk_record {
  rec_embedding : embedding;
  rec_document : string;
  rec_metadata : metadata_dict
}.

(** The index (a ChromaDB collection): embedded records by identifier. *)
Abbreviation collection := (gmap string embedded_record).

(** Some identifier occurs twice in the list. *)
Fixpoint duplicated (ids : list string) : bool :=
  match ids with
  | [] => false
  | i :: rest => existsb (String.eqb i) rest || duplicated rest
  end.

(** The records of one [add], taken in list order; a record whose
    identifier the collection holds already is left out. *)
Fixpoint add_records (ids : list string) (embeddings : list embedding)
    (documents : list string) (metadatas : list metadata_dict)
    (c : collection) : collection :=
  match ids, embeddings, documents, metadatas with
  | i :: ids', e :: embeddings', d :: documents', m :: metadatas' =>
      add_records ids' embeddings' documents' metadatas'
        (match c !! i with
         | Some _ => c
         | None => <[i := mk_record e d m]> c
         end)
  | _, _, _, _ => c
  end.

(** [collection.add] of the index.  The index is the library ChromaDB,
    which is not part of the sources; this is what its [Collection.add]
    does with the arguments the two callers hand it:
    - the identifiers must be a non-empty list ([ValueError]);
    - no identifier may occur twice in one call ([DuplicateIDError]);
    - embeddings, documents and metadata must be as many as the
      identifiers ([ValueError]);
    - all this is checked before anything is written;
    - a record whose identifier the collection holds already is ignored
      and the stored record stays: [add] inserts, replacing is [upsert],
      which the sources never call.
    The library's checks on the entries of a metadata dictionary are not
    part of this model. *)
Definition collection_add (ids : list string) (embeddings : list embedding)
    (documents : list string) (metadatas : list metadata_dict)
    : prog collection unit :=
  λ c,
    match ids with
    | [] => (Raise (mk_exn ValueError "Expected IDs to be a non-empty list"), c)
    | _ :: _ =>
        if duplicated ids then
          (Raise (mk_exn DuplicateIDError "Expected IDs to be unique"), c)
        else if negb ((length embeddings =? length ids)%nat
                      && (length documents =? length ids)%nat
                      && (length metadatas =? length ids)%nat) then
          (Raise (mk_exn ValueError "Unequal lengths for fields"), c)
        else (Return tt, add_records ids embeddings documents metadatas c)
    end.

(** [collection.count()] of the index: the number of records it
    holds. *)
Definition collection_count (c : collection) : nat := size c.

(** What [collection.query] returns for one query embedding: a list per
    query of identifiers, and, when present, of distances, documents and
    metadata dictionaries. *)
Record query_result : Type := mk_query_result {
  ids : list (list string);
  distances : option (list (list Q));
  documents : option (list (list string));
  metadatas : option (list (list metadata_dict))
}.

(** Truthiness of an optional list: neither [None] nor empty. *)
Definition truthy {A} (o : option (list A)) : bool :=
  match o with
  | Some (_ :: _) => true
  | _ => false
  end.

(** [l[i]] *)
Definition index {A} (l : list A) (i : nat) : outcome A :=
  match l !! i with
  | Some a => Return a
  | None => Raise (mk_exn IndexError "list index out of range")
  end.

(** [o[0][i]] for an optional list of lists that is truthy. *)
Definition index0 {A} (o : option (list (list A))) (i : nat) : outcome A :=
  row ← index (default [] o) 0; index row i.

(** One result dictionary of [search]. *)
Record search_result : Type := mk_search_result {
  result_id : string;
  content : string;
  metadata : metadata_dict;
  score : Q
}.

(** The body of [for i in range(len(results["ids"][0]))], over the indices
    still to visit; [formatted_results] is the list built so far. *)
Fixpoint format_results (results : query_result) (min_similarity : option Q)
    (indices : list nat) (formatted_results : list search_result)
    : outcome (list search_result) :=
  match indices with
  | [] => Return formatted_results
  | i :: rest =>
      distance ← (if truthy (distances results)
                  then index0 (distances results) i else Return 0%Q);
      let similarity := (1 - distance)%Q in
      if match min_similarity with
         | Some m => Qltb similarity m
         | None => false
         end
      then format_results results min_similarity rest formatted_results
      else
        id ← index0 (Some (ids results)) i;
        doc ← (if truthy (documents results)
               then index0 (documents results) i else Return "");
        md ← (if truthy (metadatas results)
              then index0 (metadatas results) i else Return []);
        format_results results min_similarity rest
          (formatted_results ++ [mk_search_result id doc md similarity])
  end.

Section Gateway.
(** [self.embedding_model.encode(text).tolist()] *)
Variable encode : string → embedding.
(** [self.collection.query(query_embeddings=..., n_results=...)] *)
Variable collection_query : collection → list embedding → Z → query_result.

(** [VectorStore.add_message] *)
Definition add_message (message_id content : string) (md : metadata_dict)
    : prog collection unit :=
  let embedding := encode content in
  collection_add [message_id] [embedding] [content] [md].

(** [VectorStore.add_messages_batch]; encoding a batch encodes each
    text. *)
Definition add_messages_batch (message_ids contents : list string)
    (mds : list metadata_dict) : prog collection unit :=
  let embeddings := encode <$> contents in
  collection_add message_ids embeddings contents mds.

(** [VectorStore.search] *)
Definition search (query : string) (top_k : Z) (min_similarity : option Q)
    (c : collection) : outcome (list search_result) :=
  let query_embedding := encode query in
  let results := collection_query c [query_embedding] top_k in
  match ids results with
  | ids0 :: _ =>
      format_results results min_similarity (seq 0 (length ids0)) []
  | [] => Return []
  end.

(** [VectorStore.count] *)
Definition count (c : collection) : nat := collection_count c.

End Gateway.

End VectorStore.

(** ** [src/rag/message_processor.py] *)
Module MessageProcessor.
Import VectorStore.

(** A raw message record: a [dict[str, Any]] as loaded from JSON. *)
Definition message : Type := list (string * value).

(** [key in d] *)
Definition dict_contains (key : string) (d : list (string * value)) : bool :=
  match dict_lookup key d with Some _ => true | None => false end.

(** [d.get(key, default)] on a value: only a dictionary has [get]. *)
Definition value_get (d : value) (key : string) (dflt : value) : outcome value :=
  match d with
  | VDict b => Return (default dflt (dict_lookup key b))
  | _ => Raise (mk_exn AttributeError "object has no attribute 'get'")
  end.

(** [str.isspace] of one character (code points below 256). *)
Definition is_space (a : ascii) : bool :=
  let n := nat_of_ascii a in
  ((9 <=? n)%nat && (n <=? 13)%nat) || ((28 <=? n)%nat && (n <=? 32)%nat)
  || (n =? 133)%nat || (n =? 160)%nat.

Fixpoint lstrip (s : string) : string :=
  match s with
  | String a rest => if is_space a then lstrip rest else s
  | EmptyString => EmptyString
  end.

Definition str_reverse (s : string) : string :=
  string_of_list_ascii (rev (list_ascii_of_string s)).

(** [s.strip()] *)
Definition strip (s : string) : string :=
  str_reverse (lstrip (str_reverse (lstrip s))).

(** [v.strip()] on a value: only a string has [strip]. *)
Definition value_strip (v : value) : outcome string :=
  match v with
  | VStr s => Return (strip s)
  | _ => Raise (mk_exn AttributeError "object has no attribute 'strip'")
  end.

(** The items of a list, all of which [join] needs to be strings. *)
Fixpoint str_items (l : list value) : outcome (list string) :=
  match l with
  | [] => Return []
  | VStr s :: rest => items ← str_items rest; Return (s :: items)
  | _ :: _ => Raise (mk_exn TypeError "sequence item: expected str instance")
  end.

(** [sep.join(v)] on a value: a list of strings, the characters of a
    string, or the keys of a dictionary; anything else cannot be joined. *)
Definition value_join (sep : string) (v : value) : outcome string :=
  match v with
  | VList l => items ← str_items l; Return (join sep items)
  | VStr s => Return (join sep ((λ a, String a "") <$> list_ascii_of_string s))
  | VDict d => Return (join sep (fst <$> d))
  | _ => Raise (mk_exn TypeError "can only join an iterable")
  end.

(** Values handed to the vector store where its signature says [str]
    (identifiers and contents): the index takes strings and rejects any
    other value. *)
Definition as_str (v : value) : outcome string :=
  match v with
  | VStr s => Return s
  | _ => Raise (mk_exn ValueError "Expected a str")
  end.

Fixpoint as_strs (l : list value) : outcome (list string) :=
  match l with
  | [] => Return []
  | v :: rest => s ← as_str v; strs ← as_strs rest; Return (s :: strs)
  end.

Definition required_fields : list string :=
  ["message_id"; "url"; "author"; "timestamp"; "content"].

(** [MessageProcessor.validate_message] *)
Definition validate_message (m : message) : outcome bool :=
  if forallb (λ field, dict_contains field m) required_fields then
    content ← getitem (VDict m) "content";
    stripped ← value_strip content;
    if String.eqb stripped "" then Return false else Return true
  else Return false.

(** The metadata dictionary built for the vector store. *)
Definition build_metadata (m : message) : outcome metadata_dict :=
  url ← getitem (VDict m) "url";
  author ← getitem (VDict m) "author";
  timestamp ← getitem (VDict m) "timestamp";
  metadata_extra ← value_get (VDict m) "metadata" (VDict []);
  channel ← value_get metadata_extra "channel" (VStr "unknown");
  tags_value ← value_get metadata_extra "tags" (VList []);
  tags ← value_join "," tags_value;
  Return [("url", url); ("author", author); ("timestamp", timestamp);
          ("channel", channel); ("tags", VStr tags)].

(** The four lists [process_messages_batch] fills. *)
Record batch : Type := mk_batch {
  valid_messages : list message;
  message_ids : list value;
  contents : list value;
  metadatas : list metadata_dict
}.

(** The [for message in messages] loop of [process_messages_batch]. *)
Fixpoint collect (messages : list message) (b : batch) : outcome batch :=
  match messages with
  | [] => Return b
  | m :: rest =>
      valid ← validate_message m;
      if negb valid then collect rest b
      else
        message_id ← getitem (VDict m) "message_id";
        content ← getitem (VDict m) "content";
        md ← build_metadata m;
        collect rest
          {| valid_messages := valid_messages b ++ [m];
             message_ids := message_ids b ++ [message_id];
             contents := contents b ++ [content];
             metadatas := metadatas b ++ [md] |}
  end.

Section Processor.
Variable encode : string → embedding.

(** [self.vector_store.add_messages_batch(message_ids, contents,
    metadatas)] *)
Definition vector_store_add_messages_batch (message_ids contents : list value)
    (mds : list metadata_dict) : prog collection unit :=
  ids ← lift (as_strs message_ids);
  documents ← lift (as_strs contents);
  add_messages_batch encode ids documents mds.

(** [self.vector_store.add_message(message_id, content, metadata)] *)
Definition vector_store_add_message (message_id content : value)
    (md : metadata_dict) : prog collection unit :=
  i ← lift (as_str message_id);
  document ← lift (as_str content);
  add_message encode i document md.

(** [MessageProcessor.process_message] *)
Definition process_message (m : message) : prog collection unit :=
  valid ← lift (validate_message m);
  if negb valid then mret tt
  else
    message_id ← lift (getitem (VDict m) "message_id");
    content ← lift (getitem (VDict m) "content");
    md ← lift (build_metadata m);
    vector_store_add_message message_id content md.

(** [MessageProcessor.process_messages_batch] *)
Definition process_messages_batch (messages : list message)
    : prog collection nat :=
  b ← lift (collect messages (mk_batch [] [] [] []));
  (match valid_messages b with
   | [] => mret tt
   | _ :: _ =>
       vector_store_add_messages_batch (message_ids b) (contents b)
         (metadatas b)
   end);;
  mret (length (valid_messages b)).

End Processor.

End MessageProcessor.

(** ** [src/rag/query_engine.py] *)
Module QueryEngine.
Import VectorStore.

(** The configuration a [QueryEngine] holds. *)
Record engine : Type := mk_engine {
  top_k : Z;
  min_similarity : Q;
  system_prompt : string;
  query_template : string
}.

(** One entry of the [sources] list. *)
Record source : Type := mk_source {
  url : value;
  author : value;
  timestamp : value;
  source_score : Q;
  content_preview : string
}.

(** The dictionary [query] returns.  [num_sources] is [None] when the
    dictionary has no ["num_sources"] key. *)
Record response : Type := mk_response {
  answer : string;
  sources : list source;
  context_used : list search_result;
  num_sources : option nat
}.

Definition fallback_answer : string :=
  "I couldn't find any relevant messages to answer your question.".

(** [metadata.get(key, default)] *)
Definition metadata_get (md : metadata_dict) (key : string) (dflt : value) : value :=
  default dflt (dict_lookup key md).

(** [content[:100] + "..." if len(content) > 100 else content] *)
Definition preview (content : string) : string :=
  if (100 <? String.length content)%nat
  then String.substring 0 100 content +:+ "..."
  else content.

Section Engine.
(** The state of the LLM client. *)
Context {L : Type}.
Variable encode : string → embedding.
Variable collection_query : collection → list embedding → Z → query_result.
(** [self.llm_client.complete(prompt, system=system)] *)
Variable llm_complete : string → string → L → outcome string * L.
(** [template.format(context=context, question=question)] *)
Variable str_format : string → string → string → string.
(** [str(v)] for a value that is not a string, as an f-string field
    renders it. *)
Variable py_str : value → string.

(** An f-string field [{v}]. *)
Definition fmt (v : value) : string :=
  match v with
  | VStr s => s
  | _ => py_str v
  end.

(** What a query runs against; [llm_calls] counts the completion calls
    made. *)
Record world : Type := mk_world {
  llm_client : L;
  llm_calls : nat;
  vector_store : collection
}.

Definition complete (prompt system : string) : prog world string :=
  λ w,
    let '(r, l) := llm_complete prompt system (llm_client w) in
    (r, {| llm_client := l;
           llm_calls := S (llm_calls w);
           vector_store := vector_store w |}).

Definition vector_store_search (query : string) (top_k : Z)
    (min_similarity : option Q) : prog world (list search_result) :=
  λ w, (search encode collection_query query top_k min_similarity
          (vector_store w), w).

(** One block of the context, [i] counted from 1. *)
Definition context_part (i : nat) (result : search_result) : string :=
  let md := metadata result in
  let url := metadata_get md "url" (VStr "") in
  let author := metadata_get md "author" (VStr "Unknown") in
  let timestamp := metadata_get md "timestamp" (VStr "") in
  "Message " +:+ pretty i +:+ ":" +:+ nl +:+
  "Author: " +:+ fmt author +:+ nl +:+
  "Timestamp: " +:+ fmt timestamp +:+ nl +:+
  "URL: " +:+ fmt url +:+ nl +:+
  "Content: " +:+ content result +:+ nl.

(** [QueryEngine._format_context] *)
Definition _format_context (results : list search_result) : string :=
  join nl (imap (λ i result, context_part (S i) result) results).

(** The [source] dictionary built for one result. *)
Definition make_source (result : search_result) : source :=
  let md := metadata result in
  {| url := metadata_get md "url" (VStr "");
     author := metadata_get md "author" (VStr "Unknown");
     timestamp := metadata_get md "timestamp" (VStr "");
     source_score := score result;
     content_preview := preview (content result) |}.

(** [QueryEngine.query] *)
Definition query (question : string) (e : engine) : prog world response :=
  results ← vector_store_search question (top_k e) (Some (min_similarity e));
  match results with
  | [] =>
      mret {| answer := fallback_answer;
              sources := [];
              context_used := [];
              num_sources := None |}
  | _ :: _ =>
      let context := _format_context results in
      let prompt := str_format (query_template e) context question in
      answer ← complete prompt (system_prompt e);
      let sources := make_source <$> results in
      mret {| answer := answer;
              sources := sources;
              context_used := results;
              num_sources := Some (length sources) |}
  end.

(** The line [format_response] adds for one source. *)
Definition source_line (s : source) : string :=
  "- " +:+ content_preview s +:+ " by " +:+ fmt (author s) +:+
  " (" +:+ fmt (url s) +:+ ")" +:+ nl.

(** [QueryEngine.format_response] *)
Definition format_response (r : response) : string :=
  let output := answer r in
  match sources r with
  | [] => output
  | _ :: _ =>
      if negb (str_contains "Sources:" output) then
        fold_left (λ output s, output +:+ source_line s) (sources r)
          (output +:+ nl +:+ nl +:+ "Sources:" +:+ nl)
      else output
  end.

End Engine.

End QueryEngine.

(** ** [src/utils/token_counter.py] *)
Module TokenCounter.

(** [len(text)] *)
Definition len (text : string) : Z := Z.of_nat (String.length text).

(** An index of a slice brought into [0 .. n]: a negative index counts
    from the end. *)
Definition slice_index (n i : Z) : Z :=
  if i <? 0 then Z.max 0 (i + n) else Z.min i n.

(** [text[lo:hi]] *)
Definition slice (text : string) (lo hi : Z) : string :=
  let n := len text in
  let lo := slice_index n lo in
  let hi := slice_index n hi in
  string_of_list_ascii
    (take (Z.to_nat (hi - lo)) (drop (Z.to_nat lo) (list_ascii_of_string text))).

(** The elements of an ascending [range]: from [start], by [step], while
    below [stop]. *)
Fixpoint range_up (fuel : nat) (start stop step : Z) : list Z :=
  match fuel with
  | O => []
  | S fuel' =>
      if start <? stop
      then start :: range_up fuel' (start + step) stop step
      else []
  end.

(** The elements of a descending [range]. *)
Fixpoint range_down (fuel : nat) (start stop step : Z) : list Z :=
  match fuel with
  | O => []
  | S fuel' =>
      if stop <? start
      then start :: range_down fuel' (start + step) stop step
      else []
  end.

(** [range(start, stop, step)]; a range has at most [|stop - start|]
    elements. *)
Definition range3 (start stop step : Z) : outcome (list Z) :=
  if step =? 0 then
    Raise (mk_exn ValueError "range() arg 3 must not be zero")
  else if 0 <? step then
    Return (range_up (Z.to_nat (stop - start)) start stop step)
  else
    Return (range_down (Z.to_nat (start - stop)) start stop step).

(** A [TokenCounter]. *)
Record counter : Type := mk_counter { model : string }.

(** [self.chars_per_token], which [__init__] sets to 4 and nothing
    changes. *)
Definition chars_per_token (c : counter) : Z := 4.

(** [TokenCounter.count] *)
Definition count (c : counter) (text : string) : Z :=
  match text with
  | EmptyString => 0
  | _ => len text `div` chars_per_token c
  end.

(** [TokenCounter.truncate] *)
Definition truncate (c : counter) (text : string) (max_tokens : Z) : string :=
  match text with
  | EmptyString => ""
  | _ =>
      let max_chars := max_tokens * chars_per_token c in
      if len text <=? max_chars then text else slice text 0 max_chars
  end.

(** [TokenCounter.split_by_tokens] *)
Definition split_by_tokens (c : counter) (text : string) (chunk_size : Z)
    : outcome (list string) :=
  match text with
  | EmptyString => Return []
  | _ =>
      let max_chars := chunk_size * chars_per_token c in
      match range3 0 (len text) max_chars with
      | Return starts =>
          Return ((λ i, slice text i (i + max_chars)) <$> starts)
      | Raise e => Raise e
      end
  end.

End TokenCounter.

(** ** What the further properties speak of *)
Module MoreSpec.
Import ErrorHandler RateLimiter.

(** The delays of an exponential backoff: [delay], [delay * backoff],
    [delay * backoff * backoff], ... ([k] of them). *)
Fixpoint backoff_delays (delay backoff : Q) (k : nat) : list Q :=
  match k with
  | O => []
  | S k' => delay :: backoff_delays (delay * backoff)%Q backoff k'
  end.

(** The queue of a limiter is in ascending order and holds no timestamp
    of the future. *)
Definition ordered (w : RateLimiter.world) : Prop :=
  StronglySorted Qle (requests (self w))
  ∧ Forall (λ t, (t <= clock w)%Q) (requests (self w)).

(** A cache file that [clear_expired] keeps at [current_time]: a JSON
    object whose timestamp is a number (or a boolean, counted as 0 or 1)
    not older than the time-to-live. *)
Definition kept (ttl : Z) (current_time : Q) (f : Cache.file) : bool :=
  match f with
  | Cache.JsonDoc (VDict d) =>
      match dict_lookup "timestamp" d with
      | Some (VNum q) => Qle_bool (current_time - q) (inject_Z ttl)
      | Some (VInt n) => Qle_bool (current_time - inject_Z n) (inject_Z ttl)
      | Some (VBool b) =>
          Qle_bool (current_time - (if b then 1 else 0)) (inject_Z ttl)
      | _ => false
      end
  | _ => false
  end.

(** A cache file on which the age test can be made, or whose failure the
    sweep handles: text that is not JSON, a file whose loading fails with
    one of the two handled classes, or a JSON object whose timestamp, if
    it has one, is a float, a boolean or an integer that converts to a
    float. *)
Definition sweepable (f : Cache.file) : bool :=
  match f with
  | Cache.NotJson _ => true
  | Cache.JsonDoc (VDict d) =>
      match dict_lookup "timestamp" d with
      | None | Some (VNum _) | Some (VBool _) => true
      | Some (VInt n) => Z.abs n <? Cache.float_limit
      | Some _ => false
      end
  | Cache.JsonDoc _ => false
  | Cache.Unloadable e => isinstance e [JSONDecodeError; KeyError]
  end.

(** The characters of a string. *)
Definition chars (s : string) : list ascii := list_ascii_of_string s.

End MoreSpec.

(** ** The record a batch leaves behind *)
Module StoreSpec.
Import VectorStore.

(** The first record that a batch carries for [id], if it has one. *)
Fixpoint earliest (id : string) (ids : list string) (embeddings : list embedding)
    (documents : list string) (metadatas : list metadata_dict)
    : option embedded_record :=
  match ids, embeddings, documents, metadatas with
  | i :: ids', e :: embeddings', d :: documents', m :: metadatas' =>
      if decide (i = id) then Some (mk_record e d m)
      else earliest id ids' embeddings' documents' metadatas'
  | _, _, _, _ => None
  end.

End StoreSpec.

(** ** The ingestion input format and the normalised message

    The words of the specification about ingestion, as definitions to
    compare the code with. *)
Module IngestionSpec.
Import VectorStore MessageProcessor.

Definition is_str (v : value) : bool :=
  match v with VStr _ => true | _ => false end.

(** A field that, when present, is a string. *)
Definition field_is_str (key : string) (d : list (string * value)) : bool :=
  match dict_lookup key d with
  | Some v => is_str v
  | None => true
  end.

(** The input format: "required string fields message_id, url, author,
    timestamp, content and optional metadata: {channel: string,
    tags: [string]}".  [conforms] says that the fields a record has are of
    these types; it does not say that they are present. *)
Definition conforms (m : message) : bool :=
  forallb (λ field, field_is_str field m) required_fields
  && match dict_lookup "metadata" m with
     | None => true
     | Some (VDict extra) =>
         field_is_str "channel" extra
         && match dict_lookup "tags" extra with
            | None => true
            | Some (VList tags) => forallb is_str tags
            | Some _ => false
            end
     | Some _ => false
     end.

(** "requires fields {identifier, url, author, timestamp, content};
    content must be non-empty after trimming whitespace". *)
Definition valid_record (m : message) : bool :=
  forallb (λ field, dict_contains field m) required_fields
  && match dict_lookup "content" m with
     | Some (VStr s) => negb (String.eqb (strip s) "")
     | _ => false
     end.

Definition str_field (key : string) (d : list (string * value)) : string :=
  match dict_lookup key d with
  | Some (VStr s) => s
  | _ => ""
  end.

Definition str_of (v : value) : string :=
  match v with VStr s => s | _ => "" end.

(** "maps optional nested metadata {channel, tags} to defaults
    (channel = "unknown", tags flattened to a comma-joined string) when
    absent". *)
Definition normalize_metadata (m : message) : metadata_dict :=
  let extra := match dict_lookup "metadata" m with
               | Some (VDict extra) => extra
               | _ => []
               end in
  let tags := match dict_lookup "tags" extra with
              | Some (VList tags) => str_of <$> tags
              | _ => []
              end in
  [("url", VStr (str_field "url" m));
   ("author", VStr (str_field "author" m));
   ("timestamp", VStr (str_field "timestamp" m));
   ("channel", default (VStr "unknown") (dict_lookup "channel" extra));
   ("tags", VStr (join "," tags))].

End IngestionSpec.

(** ** The index's answer and the formatted response

    What the query engine is told by the index, and the words of the
    specification about the formatted response, as definitions to state
    the properties with. *)
Module QuerySpec.
Import VectorStore QueryEngine.

(** The row for the one query asked, of a component that may be missing
    or empty. *)
Definition row0 {A} (o : option (list (list A))) : list A :=
  match o with
  | Some (row :: _) => row
  | _ => []
  end.

(** The number of neighbours the index returned. *)
Definition hits (results : query_result) : nat :=
  length (row0 (Some (ids results))).

(** A component that is present has an entry for every neighbour. *)
Definition covers {A} (n : nat) (o : option (list (list A))) : bool :=
  negb (truthy o) || (n <=? length (row0 o))%nat.

(** The shape of an answer of the index: distances, documents and
    metadata, when present, run parallel to the identifiers. *)
Definition well_formed (results : query_result) : bool :=
  covers (hits results) (distances results)
  && covers (hits results) (documents results)
  && covers (hits results) (metadatas results).

(** The [i]-th neighbour as a search result, before any threshold. *)
Definition candidate (results : query_result) (i : nat) : search_result :=
  {| result_id := nth i (row0 (Some (ids results))) "";
     content := nth i (row0 (documents results)) "";
     metadata := nth i (row0 (metadatas results)) [];
     score := (1 - nth i (row0 (distances results)) 0)%Q |}.

Definition candidates (results : query_result) : list search_result :=
  candidate results <$> seq 0 (hits results).

(** A result passes the threshold: its similarity is not below it. *)
Definition passes (min_similarity : option Q) (r : search_result) : bool :=
  match min_similarity with
  | Some m => Qle_bool m (score r)
  | None => true
  end.

(** The engine [e] with another threshold. *)
Definition with_min_similarity (t : Q) (e : engine) : engine :=
  {| top_k := top_k e;
     min_similarity := t;
     system_prompt := system_prompt e;
     query_template := query_template e |}.

(** "[needle] occurs in [hay]". *)
Definition occurs_in (needle hay : string) : Prop :=
  ∃ before after, hay = before +:+ needle +:+ after.

(** The concatenation of the given pieces of text. *)
Definition concat_all (pieces : list string) : string :=
  foldr String.append "" pieces.

(** "one line per source as [- {preview} by {author} ({url})], in source
    order", under the heading the code writes. *)
Definition sources_section (fmt : value → string) (srcs : list source) : string :=
  nl +:+ nl +:+ "Sources:" +:+ nl +:+
  concat_all ((λ s, "- " +:+ content_preview s +:+ " by " +:+ fmt (author s)
                    +:+ " (" +:+ fmt (url s) +:+ ")" +:+ nl) <$> srcs).

End QuerySpec.

(** ** Inputs to run the definitions on *)
Module Fixtures.
Import VectorStore QueryEngine.

(** The operation of [test_retry_exhausted]: it counts its invocations
    and always raises [APIError]. *)
Definition always_fails (call_count : nat) : outcome string * nat :=
  (Raise (mk_exn APIError "Permanent failure"), Datatypes.S call_count).

(** A stand-in digest for running the cache on concrete inputs. *)
Definition plain_digest (s : string) : string := s.

(** A record without content, a record with blank content, and two valid
    records, one of them with metadata. *)
Definition sample_batch : list MessageProcessor.message :=
  [ [("message_id", VStr "msg_000"); ("url", VStr "https://example.com/0");
     ("author", VStr "Dan"); ("timestamp", VStr "2025-01-01T09:00:00Z")];
    [("message_id", VStr "msg_001"); ("url", VStr "https://example.com/1");
     ("author", VStr "Alice"); ("timestamp", VStr "2025-01-01T10:00:00Z");
     ("content", VStr "We need to discuss the budget allocation for Q2.");
     ("metadata", VDict [("channel", VStr "planning");
                         ("tags", VList [VStr "budget"; VStr "q2"])])];
    [("message_id", VStr "msg_002"); ("url", VStr "https://example.com/2");
     ("author", VStr "Bob"); ("timestamp", VStr "2025-01-01T11:00:00Z");
     ("content", VStr "   ")];
    [("message_id", VStr "msg_003"); ("url", VStr "https://example.com/3");
     ("author", VStr "Charlie"); ("timestamp", VStr "2025-01-01T12:00:00Z");
     ("content", VStr "User feedback is positive.")] ].

Definition length_encoder (text : string) : embedding :=
  [inject_Z (Z.of_nat (String.length text))].

(** The response to the budget question, with one source. *)
Definition budget_response : response :=
  {| answer := "The Q2 budget allocation was discussed.";
     sources := [ {| url := VStr "https://example.com/msg_001";
                     author := VStr "Alice";
                     timestamp := VStr "2025-01-01T10:00:00Z";
                     source_score := (9 # 10)%Q;
                     content_preview := "We need to discuss the budget." |} ];
     context_used := [];
     num_sources := Some 1%nat |}.


(** An LLM client that counts its calls and answers every prompt. *)
Definition canned_llm (prompt system : string) (calls : nat)
    : outcome string * nat :=
  (Return "The budget allocation for Q2 was discussed.", S calls).

(** An index that answers every query with the same two neighbours, at
    cosine distances 1/10 and 9/10. *)
Definition two_hits (c : collection) (query_embeddings : list embedding)
    (n_results : Z) : query_result :=
  {| ids := [["msg_001"; "msg_002"]];
     distances := Some [[(1 # 10)%Q; (9 # 10)%Q]];
     documents := Some [["We need to discuss the budget allocation for Q2.";
                         "The new feature is ready for testing."]];
     metadatas := Some [[ [("url", VStr "https://example.com/msg_001");
                            ("author", VStr "Alice");
                            ("timestamp", VStr "2025-01-01T10:00:00Z")];
                          [("url", VStr "https://example.com/msg_002");
                            ("author", VStr "Bob");
                            ("timestamp", VStr "2025-01-01T11:00:00Z")] ]] |}.

Definition no_embedding (text : string) : embedding := [].

Definition plain_format (template context question : string) : string :=
  template +:+ context +:+ question.

Definition no_str (v : value) : string := "".

Definition engine_at (threshold : Q) : engine :=
  {| top_k := 3;
     min_similarity := threshold;
     system_prompt := "Answer from the messages.";
     query_template := "" |}.

Definition fresh_world : @world nat :=
  {| llm_client := 0%nat; llm_calls := 0%nat; vector_store := ∅ |}.

End Fixtures.

(** ** Further inputs to run the definitions on *)
Module MoreFixtures.

(** The operation of [test_retry_success_after_failures]: it fails on
    its first two invocations and succeeds on the third. *)
Definition flaky_function (call_count : nat) : outcome string * nat :=
  if (S call_count <? 3)%nat
  then (Raise (mk_exn APIError "Temporary failure"), S call_count)
  else (Return "success", S call_count).

(** An LLM client whose every call is refused. *)
Definition refusing_llm (prompt system : string) (calls : nat)
    : outcome string * nat :=
  (Raise (mk_exn RateLimitError "Rate limit exceeded"), S calls).

End MoreFixtures.

(** * Properties *)

(** ** Retry wrapper *)
Module ErrorHandlerFacts.
Import ErrorHandler Fixtures.

Section Retry.
Context {S A : Type}.
Variable func : S → outcome A * S.

Implicit Types (w : @world S) (exceptions : list exc_class).

Lemma state_after_succ k s :
  state_after func (Datatypes.S k) s = state_after func k (func s).2.
Proof. unfold state_after. by rewrite Nat.iter_succ_r. Qed.

Lemma invoke_calls w : calls (invoke func w).2 = Datatypes.S (calls w).
Proof. unfold invoke. by destruct (func (fstate w)). Qed.

Lemma invoke_fstate w : fstate (invoke func w).2 = (func (fstate w)).2.
Proof. unfold invoke. by destruct (func (fstate w)). Qed.

Lemma invoke_outcome w : (invoke func w).1 = (func (fstate w)).1.
Proof. unfold invoke. by destruct (func (fstate w)). Qed.

Lemma invoke_slept w : slept (invoke func w).2 = slept w.
Proof. unfold invoke. by destruct (func (fstate w)). Qed.

(** The loop over the attempts [j, j+1, ..., j+k], the last of which is
    attempt number [max_retries], against an operation that always
    fails with a retryable class: all [k+1] attempts are made and the
    failure of the last one comes out. *)
Lemma attempts_loop_exhausts exceptions backoff max_retries k :
  always_fails_with func exceptions →
  ∀ (j : nat) delay last w,
    Z.of_nat j + Z.of_nat k = max_retries →
    let r := attempts_loop func max_retries backoff exceptions
               (Z.of_nat <$> seq j (Datatypes.S k)) delay last w in
    ∃ e, (func (state_after func k (fstate w))).1 = Raise e
         ∧ r.1 = Raise e
         ∧ calls r.2 = (calls w + Datatypes.S k)%nat
         ∧ length (slept r.2) = (length (slept w) + k)%nat.
Proof.
  intros Hfail. induction k as [|k IH]; intros j delay last w Hj r; subst r.
  - cbn [seq fmap list_fmap attempts_loop].
    destruct (Hfail (fstate w)) as (e & He & Hin).
    pose proof (invoke_outcome w) as Ho. pose proof (invoke_calls w) as Hc.
    pose proof (invoke_slept w) as Hs.
    destruct (invoke func w) as [r w']. cbn [fst snd] in *.
    rewrite He in Ho. subst r. rewrite Hin.
    replace (Z.of_nat j <? max_retries) with false
      by (symmetry; apply Z.ltb_ge; lia).
    exists e. cbn [fst snd state_after Nat.iter].
    rewrite Hc, Hs. repeat split; [done | lia | lia].
  - change (Z.of_nat <$> seq j (Datatypes.S (Datatypes.S k)))
      with (Z.of_nat j :: (Z.of_nat <$> seq (Datatypes.S j) (Datatypes.S k))).
    cbn [attempts_loop].
    destruct (Hfail (fstate w)) as (e & He & Hin).
    pose proof (invoke_outcome w) as Ho. pose proof (invoke_calls w) as Hc.
    pose proof (invoke_slept w) as Hs. pose proof (invoke_fstate w) as Hf.
    destruct (invoke func w) as [r w']. cbn [fst snd] in *.
    rewrite He in Ho. subst r. rewrite Hin.
    replace (Z.of_nat j <? max_retries) with true
      by (symmetry; apply Z.ltb_lt; lia).
    destruct (IH (Datatypes.S j) (delay * backoff)%Q (Some e)
                (time_sleep delay w') ltac:(lia))
      as (e' & He' & Hr & Hcalls & Hslept).
    exists e'. rewrite state_after_succ, <- Hf.
    cbn [time_sleep fstate calls slept] in *.
    rewrite length_app, Hs in Hslept. cbn [length] in Hslept.
    rewrite Hc in Hcalls.
    repeat split; [done | done | lia | lia].
Qed.

(** A failure whose class is not in [exceptions] leaves the wrapper at
    once. *)
Lemma attempts_loop_propagates exceptions backoff max_retries attempt rest
    delay last w e :
  (func (fstate w)).1 = Raise e →
  isinstance e exceptions = false →
  attempts_loop func max_retries backoff exceptions (attempt :: rest)
    delay last w = (Raise e, (invoke func w).2).
Proof.
  intros He Hin. cbn [attempts_loop].
  pose proof (invoke_outcome w) as Ho.
  destruct (invoke func w) as [r w']. cbn [fst snd] in *.
  rewrite He in Ho. subst r. by rewrite Hin.
Qed.

Lemma range_succ (n : Z) :
  0 ≤ n → range (n + 1) = Z.of_nat <$> seq 0 (Datatypes.S (Z.to_nat n)).
Proof.
  intros Hn. unfold range. by replace (Z.to_nat (n + 1)) with
    (Datatypes.S (Z.to_nat n)) by lia.
Qed.

(** C3.  With [max_retries = N >= 0]: an operation that always fails
    with a class of the retryable set is invoked exactly [N + 1] times
    and the wrapper then raises the failure of the last invocation, class
    and message unchanged; an operation that fails with a class outside
    the retryable set is invoked exactly once and its failure comes out
    unchanged, with no sleep in between. *)
Theorem retry_on_error_exhaustion (max_retries : Z) (delay backoff : Q)
    exceptions w :
  0 ≤ max_retries →
  let r := retry_on_error func max_retries delay backoff exceptions w in
  (always_fails_with func exceptions →
     ∃ e, (func (state_after func (Z.to_nat max_retries) (fstate w))).1
            = Raise e
          ∧ r.1 = Raise e
          ∧ Z.of_nat (calls r.2) = Z.of_nat (calls w) + (max_retries + 1))
  ∧ (∀ e, (func (fstate w)).1 = Raise e →
          isinstance e exceptions = false →
          r.1 = Raise e
          ∧ Z.of_nat (calls r.2) = Z.of_nat (calls w) + 1
          ∧ slept r.2 = slept w).
Proof.
  intros Hn r. subst r. unfold retry_on_error. rewrite range_succ by done.
  split.
  - intros Hfail.
    destruct (attempts_loop_exhausts exceptions backoff max_retries
                (Z.to_nat max_retries) Hfail 0%nat delay None w ltac:(lia))
      as (e & He & Hr & Hcalls & _).
    exists e. repeat split; [done | done | lia].
  - intros e He Hin.
    change (Z.of_nat <$> seq 0 (Datatypes.S (Z.to_nat max_retries)))
      with (Z.of_nat 0%nat
              :: (Z.of_nat <$> seq 1 (Z.to_nat max_retries))).
    rewrite (attempts_loop_propagates _ _ _ _ _ _ _ _ e He Hin).
    cbn [fst snd]. rewrite invoke_calls, invoke_slept.
    repeat split; [lia].
Qed.

End Retry.

Lemma retry_on_error_exhaustion_witness :
  let r := retry_on_error always_fails 2 (1 # 10) 2 [Exception]
             (mk_world 0%nat 0%nat []) in
  (∃ e, (always_fails 2%nat).1 = Raise e ∧ r.1 = Raise e
        ∧ Z.of_nat (calls r.2) = 3)
  ∧ fstate r.2 = 3%nat.
Proof.
  split; [|reflexivity].
  destruct (retry_on_error_exhaustion always_fails 2 (1 # 10) 2 [Exception]
              (mk_world 0%nat 0%nat []) ltac:(lia)) as [Hexhaust _].
  apply Hexhaust. intros s. eexists. split; reflexivity.
Defined.

End ErrorHandlerFacts.

(** ** Response cache *)
Module CacheFacts.
Import Cache Fixtures.

Lemma Qgtb_true a b : Qgtb a b = true ↔ (b < a)%Q.
Proof.
  unfold Qgtb. rewrite negb_true_iff, <- not_true_iff_false, Qle_bool_iff.
  split; [apply Qnot_le_lt | apply Qlt_not_le].
Qed.

Lemma Qgtb_false a b : Qgtb a b = false ↔ (a <= b)%Q.
Proof. unfold Qgtb. by rewrite negb_false_iff, Qle_bool_iff. Qed.

Lemma inject_Z_nonneg (z : Z) : 0 ≤ z → (0 <= inject_Z z)%Q.
Proof. intros Hz. rewrite (Zle_Qle 0) in Hz. exact Hz. Qed.

Section Hashed.
Variable sha256_hexdigest : string → string.

Abbreviation key := (_get_cache_key sha256_hexdigest).
Abbreviation path_of p m := (_get_cache_path (key p m)).
Abbreviation get := (get sha256_hexdigest).
Abbreviation set := (set sha256_hexdigest).

(** [get] reads nothing of its arguments but the key. *)
Lemma get_same_key p m p' m' now c :
  key p m = key p' m' → get p m now c = get p' m' now c.
Proof. unfold Cache.get. by intros ->. Qed.

Lemma set_files p m r now c :
  cache_dir (set p m r now c).2
  = <[path_of p m := JsonDoc (VDict [("timestamp", VNum now);
                                      ("prompt", VStr p);
                                      ("model", VStr m);
                                      ("response", VStr r)])]> (cache_dir c).
Proof. reflexivity. Qed.

Lemma set_ttl p m r now c : ttl_seconds (set p m r now c).2 = ttl_seconds c.
Proof. reflexivity. Qed.

(** A lookup, within the time-to-live, of the entry [set] wrote. *)
Lemma get_fresh p m r t_set t_get c :
  (t_get - t_set <= inject_Z (ttl_seconds c))%Q →
  let c1 := (set p m r t_set c).2 in
  get p m t_get c1 = (Return (VStr r), c1).
Proof.
  intros Hage c1. unfold Cache.get. subst c1.
  rewrite set_files, lookup_insert_eq, set_ttl.
  apply Qgtb_false in Hage.
  unfold try_except, mbind, prog_bind, lift. cbn [json_load getitem
    dict_lookup String.eqb Ascii.eqb Bool.eqb time_minus].
  cbn. by rewrite Hage.
Qed.

(** A lookup, past the time-to-live, of the entry [set] wrote. *)
Lemma get_stale p m r t_set t_get c :
  (inject_Z (ttl_seconds c) < t_get - t_set)%Q →
  let c1 := (set p m r t_set c).2 in
  get p m t_get c1
  = (Return VNone,
     {| ttl_seconds := ttl_seconds c;
        cache_dir := delete (path_of p m) (cache_dir c1) |}).
Proof.
  intros Hage c1. unfold Cache.get. subst c1.
  rewrite set_files, lookup_insert_eq.
  apply Qgtb_true in Hage.
  unfold try_except, mbind, prog_bind, lift. cbn [json_load getitem
    dict_lookup String.eqb Ascii.eqb Bool.eqb time_minus].
  cbn. by rewrite Hage.
Qed.

(** C5.  After [set(p, m, r)], a [get(p, m)] issued while no more than
    [ttl_seconds] have elapsed returns exactly [r] and leaves the storage
    as [set] left it: in particular a [get] issued at once, for any
    time-to-live that is not negative.  Once more than [ttl_seconds]
    have elapsed, [get(p, m)] returns [None] and the entry's file is gone
    from the storage, every other file being untouched. *)
Theorem set_get_round_trip (p m r : string) (t_set t_get : Q)
    (c : ResponseCache) :
  let c1 := (set p m r t_set c).2 in
  ((t_get - t_set <= inject_Z (ttl_seconds c))%Q →
     get p m t_get c1 = (Return (VStr r), c1))
  ∧ (0 ≤ ttl_seconds c → get p m t_set c1 = (Return (VStr r), c1))
  ∧ ((inject_Z (ttl_seconds c) < t_get - t_set)%Q →
       (get p m t_get c1).1 = Return VNone
       ∧ cache_dir (get p m t_get c1).2 !! path_of p m = None
       ∧ ∀ other, other ≠ path_of p m →
           cache_dir (get p m t_get c1).2 !! other = cache_dir c !! other).
Proof.
  cbv zeta. repeat split.
  - apply get_fresh.
  - intros Httl. apply get_fresh.
    apply inject_Z_nonneg in Httl. lra.
  - by rewrite get_stale.
  - rewrite get_stale by done. cbn [snd cache_dir]. apply lookup_delete_eq.
  - intros other Hother. rewrite get_stale by done. cbn [snd cache_dir].
    rewrite set_files. by rewrite lookup_delete_ne, lookup_insert_ne.
Qed.

(** C6 on the code: a stored entry that is valid JSON but not an object,
    or an object whose timestamp is not a number, makes [get] raise
    [TypeError], which its [except (json.JSONDecodeError, KeyError)]
    clause does not catch; the entry stays in the storage. *)
Theorem get_raises_on_wrong_type (p m : string) (now : Q)
    (c : ResponseCache) :
  let with_entry v :=
    {| ttl_seconds := ttl_seconds c;
       cache_dir := <[path_of p m := JsonDoc v]> (cache_dir c) |} in
  let c_list := with_entry (VList []) in
  let c_stamp := with_entry (VDict [("timestamp", VStr "2025-01-01");
                                    ("response", VStr "cached")]) in
  (∃ e, get p m now c_list = (Raise e, c_list) ∧ exn_class e = TypeError)
  ∧ (∃ e, get p m now c_stamp = (Raise e, c_stamp)
          ∧ exn_class e = TypeError).
Proof.
  cbv zeta. split; unfold Cache.get; cbn [cache_dir];
    rewrite lookup_insert_eq; eexists; split; reflexivity.
Qed.

(** The entries [get] does heal: text that is not JSON, and an object
    without a ["timestamp"] key, are deleted and the lookup returns
    [None]. *)
Lemma get_heals_unparsable (p m : string) (now : Q) (c : ResponseCache)
    (f : file) :
  cache_dir c !! path_of p m = Some f →
  (∃ text, f = NotJson text)
  ∨ (∃ d, f = JsonDoc (VDict d) ∧ dict_lookup "timestamp" d = None) →
  get p m now c
  = (Return VNone,
     {| ttl_seconds := ttl_seconds c;
        cache_dir := delete (path_of p m) (cache_dir c) |}).
Proof.
  intros Hf Hbad. unfold Cache.get. rewrite Hf.
  destruct Hbad as [[text ->] | (d & -> & Hd)].
  - reflexivity.
  - unfold try_except, mbind, prog_bind, lift. cbn [json_load getitem].
    by rewrite Hd.
Qed.

(** C10.  The pairs (prompt ["c"], model ["a:b"]) and (prompt ["b:c"],
    model ["a"]) are distinct and have the same cache key, both hashing
    the text ["a:b:c"]; a [set] under the first pair therefore replaces
    the entry a [set] under the second one wrote, and [get] under the
    second pair returns the first pair's response. *)
Theorem cache_key_collision :
  ("c", "a:b") ≠ ("b:c", "a")
  ∧ key "c" "a:b" = key "b:c" "a"
  ∧ ∀ (r1 r2 : string) (now : Q) (c : ResponseCache),
      0 ≤ ttl_seconds c →
      let c1 := (set "b:c" "a" r1 now c).2 in
      let c2 := (set "c" "a:b" r2 now c1).2 in
      get "b:c" "a" now c2 = (Return (VStr r2), c2).
Proof.
  split; [done|]. split; [reflexivity|].
  intros r1 r2 now c Httl c1 c2.
  rewrite (get_same_key "b:c" "a" "c" "a:b") by reflexivity.
  apply get_fresh. subst c1. rewrite set_ttl.
  apply inject_Z_nonneg in Httl. lra.
Qed.

End Hashed.

Lemma set_get_round_trip_witness :
  let c := mk_cache 3600 ∅ in
  let c1 := (set plain_digest "What is AI?" "claude" "AI." 100 c).2 in
  get plain_digest "What is AI?" "claude" 100 c1 = (Return (VStr "AI."), c1)
  ∧ (get plain_digest "What is AI?" "claude" 3701 c1).1 = Return VNone.
Proof.
  pose proof (set_get_round_trip plain_digest "What is AI?" "claude" "AI."
                100%Q 3701%Q (mk_cache 3600 ∅)) as (_ & Hnow & Hlate).
  split.
  - apply Hnow. cbn. lia.
  - apply Hlate. reflexivity.
Defined.

Lemma cache_key_collision_witness :
  let c := mk_cache 3600 ∅ in
  let c1 := (set plain_digest "b:c" "a" "first" 100 c).2 in
  let c2 := (set plain_digest "c" "a:b" "second" 100 c1).2 in
  get plain_digest "b:c" "a" 100 c2 = (Return (VStr "second"), c2).
Proof.
  pose proof (cache_key_collision plain_digest) as (_ & _ & Hget).
  apply (Hget "first" "second" 100%Q (mk_cache 3600 ∅)). cbn. lia.
Defined.

End CacheFacts.

(** ** Rate limiter *)
Module RateLimiterFacts.
Import RateLimiter CacheFacts.

(** Unfolds the record updates of the limiter's world. *)
Ltac limiter_simpl :=
  unfold set_requests, time_sleep, advance;
  cbn [self requests requests_per_minute window_size clock fst snd
       current_requests max_requests].

Lemma geb_false (a b : Z) : a < b → (a >=? b) = false.
Proof. intros H. rewrite Z.geb_leb. by apply Z.leb_gt. Qed.

Lemma geb_true (a b : Z) : b ≤ a → (a >=? b) = true.
Proof. intros H. rewrite Z.geb_leb. by apply Z.leb_le. Qed.

(** Pruning stops at the first timestamp that is still in the window. *)
Lemma purge_head_in_window now window oldest rest :
  (now - oldest <= window)%Q →
  purge now window (oldest :: rest) = oldest :: rest.
Proof. intros H. cbn [purge]. apply Qgtb_false in H. by rewrite H. Qed.

Lemma purge_repeat_now now window k :
  (0 <= window)%Q → purge now window (repeat now k) = repeat now k.
Proof.
  intros Hw. destruct k as [|k]; [done|]. cbn [repeat].
  apply purge_head_in_window. lra.
Qed.

(** A call that finds room appends the current time and returns at
    once. *)
Lemma acquire_admits over w :
  purge (clock w) (window_size (self w)) (requests (self w))
    = requests (self w) →
  Z.of_nat (length (requests (self w))) < requests_per_minute (self w) →
  acquire over w
  = (Return tt, set_requests (requests (self w) ++ [clock w]) w).
Proof.
  intros Hpurge Hroom. unfold acquire. limiter_simpl.
  rewrite Hpurge, geb_false by done.
  reflexivity.
Qed.

(** [k] calls in a row on a fresh limiter with room for them: [k] copies
    of the current time are retained. *)
Lemma acquire_many_fills capacity window t0 over k :
  (0 <= window)%Q → Z.of_nat k ≤ capacity →
  acquire_many k over (mk_world t0 (mk_limiter capacity window []))
  = (Return tt, mk_world t0 (mk_limiter capacity window (repeat t0 k))).
Proof.
  intros Hw. 
  assert (∀ j, Z.of_nat (j + k) ≤ capacity →
    acquire_many k over
      (mk_world t0 (mk_limiter capacity window (repeat t0 j)))
    = (Return tt,
       mk_world t0 (mk_limiter capacity window (repeat t0 (j + k)))))
    as Hgen.
  { induction k as [|k IH]; intros j Hk.
    - by rewrite Nat.add_0_r.
    - cbn [acquire_many]. rewrite acquire_admits.
      + limiter_simpl.
        replace (repeat t0 j ++ [t0])%list with (repeat t0 (Datatypes.S j))
          by (cbn [repeat]; apply repeat_cons).
        rewrite IH by lia. do 4 f_equal. lia.
      + cbn. by apply purge_repeat_now.
      + cbn. rewrite repeat_length. lia. }
  intros Hk. apply (Hgen 0%nat). by cbn.
Qed.

(** C4 on the code.  A limiter of capacity [n + 1 >= 1] receives
    [capacity + 1] calls to [acquire] with no time passing between them,
    and the [time.sleep] of the last call lasts exactly as long as asked
    for.  The call blocks for the whole window, but on waking the oldest
    timestamp is exactly [window_size] old, which [>] does not prune: all
    [capacity + 1] timestamps are retained and [get_current_usage] reports
    [capacity + 1] current requests against [max_requests = capacity]. *)
Theorem acquire_exact_sleep_exceeds_capacity (n : nat) (t0 : Q) :
  let capacity := Z.of_nat (Datatypes.S n) in
  let r := acquire_many (Datatypes.S (Datatypes.S n)) 0
             (mk_world t0 (init capacity)) in
  r.1 = Return tt
  ∧ (clock r.2 - t0 == 60)%Q
  ∧ length (requests (self r.2)) = Datatypes.S (Datatypes.S n)
  ∧ current_requests (get_current_usage r.2).1 = Datatypes.S (Datatypes.S n)
  ∧ max_requests (get_current_usage r.2).1 = capacity.
Proof.
  intros capacity r. subst r. unfold init.
  assert (∀ k w, acquire_many (Datatypes.S k) 0 w
    = match acquire_many k 0 w with
      | (Return _, w') => acquire 0 w'
      | (Raise e, w') => (Raise e, w')
      end) as Hlast.
  { induction k as [|k IH]; intros w.
    - cbn [acquire_many]. by destruct (acquire 0 w) as [[[]|e] w'].
    - change (acquire_many (Datatypes.S (Datatypes.S k)) 0 w)
        with (match acquire 0 w with
              | (Return _, w') => acquire_many (Datatypes.S k) 0 w'
              | (Raise e, w') => (Raise e, w')
              end).
      cbn [acquire_many] in *.
      destruct (acquire 0 w) as [[[]|e] w']; [apply IH | done]. }
  rewrite Hlast, (acquire_many_fills capacity 60 t0 0 (Datatypes.S n))
    by (done || lia).
  unfold acquire. limiter_simpl.
  rewrite purge_repeat_now by done.
  rewrite geb_true by (rewrite repeat_length; subst capacity; lia).
  cbn [repeat].
  assert (Qgtb (60 - (t0 - t0)) 0 = true) as -> by (apply Qgtb_true; lra).
  limiter_simpl.
  rewrite purge_head_in_window by lra.
  unfold get_current_usage. limiter_simpl.
  rewrite <- app_comm_cons, purge_head_in_window by lra.
  cbn [length]. rewrite length_app, repeat_length. cbn [length].
  repeat split; [lra | lia | lia].
Qed.

(** *** What does hold of [acquire] *)

Lemma purge_head_expired now window oldest rest :
  (window < now - oldest)%Q →
  purge now window (oldest :: rest) = purge now window rest.
Proof. intros H. cbn [purge]. apply Qgtb_true in H. by rewrite H. Qed.

Lemma purge_length now window reqs :
  (length (purge now window reqs) ≤ length reqs)%nat.
Proof.
  induction reqs as [|t reqs IH]; [done|]. cbn [purge].
  destruct (Qgtb (now - t) window); cbn [length]; lia.
Qed.

(** After pruning, the oldest timestamp left is inside the window. *)
Lemma purge_head now window reqs oldest rest :
  purge now window reqs = oldest :: rest → (now - oldest <= window)%Q.
Proof.
  induction reqs as [|t reqs IH]; [done|]. cbn [purge].
  destruct (Qgtb (now - t) window) eqn:Hage; [done|].
  intros [= -> _]. by apply Qgtb_false.
Qed.

(** Pruning keeps a suffix of the queue. *)
Lemma purge_suffix now window reqs :
  ∃ dropped, reqs = (dropped ++ purge now window reqs)%list.
Proof.
  induction reqs as [|t reqs [dropped IH]]; [by exists []|]. cbn [purge].
  destruct (Qgtb (now - t) window).
  - exists (t :: dropped). cbn. by rewrite <- IH.
  - by exists [].
Qed.

(** A call that finds the queue full blocks, and its wait is at least
    the time the oldest retained timestamp needs to reach the age of the
    window: [window - (now - oldest)]. *)
Lemma acquire_blocks_at_least over w oldest rest :
  (0 <= over)%Q →
  purge (clock w) (window_size (self w)) (requests (self w)) = oldest :: rest →
  requests_per_minute (self w) ≤ Z.of_nat (length (oldest :: rest)) →
  ∃ w', acquire over w = (Return tt, w')
        ∧ (window_size (self w) - (clock w - oldest)
           <= clock w' - clock w)%Q.
Proof.
  intros Hover Hpurge Hfull. unfold acquire. limiter_simpl.
  rewrite Hpurge, geb_true by done.
  destruct (Qgtb (window_size (self w) - (clock w - oldest)) 0) eqn:Hsleep;
    limiter_simpl; eexists; (split; [reflexivity|]); limiter_simpl.
  - lra.
  - apply Qgtb_false in Hsleep. lra.
Qed.

(** With a limiter of capacity at least 1 whose queue is within capacity,
    a sleep that overshoots, and no retained timestamp exactly
    [window_size] old when the call starts, [acquire] returns with the
    queue within capacity. *)
Lemma acquire_within_capacity over w :
  1 ≤ requests_per_minute (self w) →
  Z.of_nat (length (requests (self w))) ≤ requests_per_minute (self w) →
  (0 < over)%Q →
  Forall (λ t, ¬ (clock w - t == window_size (self w))%Q) (requests (self w)) →
  ∃ w', acquire over w = (Return tt, w')
        ∧ Z.of_nat (length (requests (self w'))) ≤ requests_per_minute (self w')
        ∧ requests_per_minute (self w') = requests_per_minute (self w).
Proof.
  intros Hcap Hlen Hover Hedge. unfold acquire. limiter_simpl.
  pose proof (purge_length (clock w) (window_size (self w)) (requests (self w)))
    as Hpl.
  destruct (purge_suffix (clock w) (window_size (self w)) (requests (self w)))
    as [dropped Hsuffix].
  destruct (purge (clock w) (window_size (self w)) (requests (self w)))
    as [|oldest rest] eqn:Hpurge.
  - rewrite geb_false by (cbn [length]; lia).
    eexists. split; [reflexivity|]. limiter_simpl. cbn [app length]. lia.
  - destruct (_ >=? _) eqn:Hfull.
    + apply purge_head in Hpurge as Hage.
      assert (¬ (clock w - oldest == window_size (self w))%Q) as Hne.
      { rewrite Hsuffix in Hedge. apply Forall_app in Hedge as [_ Hedge].
        by apply Forall_cons in Hedge as [Hedge _]. }
      assert (Qgtb (window_size (self w) - (clock w - oldest)) 0 = true)
        as -> by (apply Qgtb_true; lra).
      limiter_simpl. rewrite purge_head_expired by lra.
      eexists. split; [reflexivity|]. limiter_simpl.
      rewrite length_app.
      pose proof (purge_length
        (clock w + (window_size (self w) - (clock w - oldest) + over))
        (window_size (self w)) rest).
      cbn [length] in *. lia.
    + rewrite Z.geb_leb in Hfull. apply Z.leb_gt in Hfull.
      eexists. split; [reflexivity|]. limiter_simpl.
      rewrite length_app. cbn [length] in *. lia.
Qed.

(** On a queue in ascending order, the order in which a monotone clock
    fills it, pruning retains exactly the timestamps of the last
    [window] seconds. *)
Lemma purge_retains_window now window reqs :
  StronglySorted Qle reqs →
  purge now window reqs
  = List.filter (λ t, Qle_bool (now - t) window) reqs.
Proof.
  induction 1 as [|t reqs Hsorted IH Hleast]; [done|].
  cbn [purge List.filter]. unfold Qgtb.
  destruct (Qle_bool (now - t) window) eqn:Hage; cbn [negb]; [|exact IH].
  f_equal. symmetry. apply forallb_filter_id, forallb_forall.
  intros t' Hin. apply Qle_bool_iff. apply Qle_bool_iff in Hage.
  rewrite Forall_forall in Hleast. specialize (Hleast t').
  assert (t <= t')%Q by (apply Hleast; by apply list_elem_of_In).
  lra.
Qed.

End RateLimiterFacts.

(** ** Vector store *)
Module VectorStoreFacts.
Import VectorStore StoreSpec Fixtures.

(** A key without binding in a list of bindings selects nothing. *)
Lemma no_binding_of_key {V} (l : list (string * V)) (k : string) :
  k ∉ l.*1 → filter (λ kv, kv.1 = k) l = [].
Proof.
  induction l as [|[k' v'] l IH]; intros Hk; [done|].
  cbn [fmap list_fmap fst] in Hk. apply not_elem_of_cons in Hk as [Hne Hk].
  rewrite filter_cons_False by (cbn; congruence). by apply IH.
Qed.

(** In a list of bindings whose keys are pairwise distinct, a key that
    is bound has exactly one binding. *)
Lemma one_binding_per_key {V} (l : list (string * V)) (k : string) (v : V) :
  NoDup l.*1 → (k, v) ∈ l → length (filter (λ kv, kv.1 = k) l) = 1%nat.
Proof.
  induction l as [|[k' v'] l IH]; intros Hnd Hin.
  - by apply elem_of_nil in Hin.
  - cbn [fmap list_fmap fst] in Hnd. apply NoDup_cons in Hnd as [Hk' Hnd].
    apply elem_of_cons in Hin as [Heq | Hin].
    + injection Heq as <- <-. rewrite filter_cons_True by done.
      by rewrite no_binding_of_key.
    + assert (k' ≠ k) as Hne.
      { intros ->. apply Hk'. apply list_elem_of_fmap. by exists (k, v). }
      rewrite filter_cons_False by done. by apply IH.
Qed.

Lemma duplicated_NoDup (ids : list string) :
  duplicated ids = false ↔ NoDup ids.
Proof.
  induction ids as [|i ids IH]; [split; [constructor | done]|].
  cbn [duplicated]. rewrite orb_false_iff, IH, NoDup_cons.
  apply and_iff_compat_r.
  rewrite <- not_true_iff_false, existsb_exists. split.
  - intros Hno Hin. apply Hno. exists i. split.
    + by apply list_elem_of_In.
    + apply String.eqb_refl.
  - intros Hnotin (j & Hj & Heq). apply String.eqb_eq in Heq as <-.
    by apply Hnotin, list_elem_of_In.
Qed.

(** What a batch leaves under [id]: the record found before, or else the
    first one the batch carries for it. *)
Lemma add_records_lookup id ids :
  ∀ embeddings documents metadatas (c : collection),
    add_records ids embeddings documents metadatas c !! id
    = match c !! id with
      | Some r => Some r
      | None => earliest id ids embeddings documents metadatas
      end.
Proof.
  induction ids as [|i ids IH];
    intros [|e es] [|d ds] [|m ms] c; cbn [add_records earliest];
    try by destruct (c !! id).
  rewrite IH. destruct (decide (i = id)) as [->|Hne].
  - destruct (c !! id) as [r|] eqn:Hid; [by rewrite Hid|].
    by rewrite lookup_insert_eq.
  - destruct (c !! i); [done|]. by rewrite lookup_insert_ne.
Qed.

(** Records under identifiers that are all stored already change
    nothing. *)
Lemma add_records_known ids :
  ∀ embeddings documents metadatas (c : collection),
    Forall (λ i, is_Some (c !! i)) ids →
    add_records ids embeddings documents metadatas c = c.
Proof.
  induction ids as [|i ids IH];
    intros [|e es] [|d ds] [|m ms] c Hknown; try reflexivity.
  apply Forall_cons in Hknown as [[r Hr] Hknown].
  cbn [add_records]. rewrite Hr. by apply IH.
Qed.

Section Gateway.
Variable encode : string → embedding.

Abbreviation add_message := (add_message encode).
Abbreviation add_messages_batch := (add_messages_batch encode).

(** A single record is never refused: it is stored, unless its
    identifier is taken. *)
Lemma add_message_run id content md (c : collection) :
  add_message id content md c
  = (Return tt,
     match c !! id with
     | Some _ => c
     | None => <[id := mk_record (encode content) content md]> c
     end).
Proof. reflexivity. Qed.

(** A batch of distinct identifiers with as many contents and metadata
    dictionaries is not refused. *)
Lemma add_messages_batch_run ids contents mds (c : collection) :
  ids ≠ [] → NoDup ids →
  length contents = length ids → length mds = length ids →
  add_messages_batch ids contents mds c
  = (Return tt, add_records ids (encode <$> contents) contents mds c).
Proof.
  intros Hne Hnd Hcontents Hmds.
  unfold VectorStore.add_messages_batch, collection_add.
  destruct ids as [|i ids]; [done|].
  rewrite (proj2 (duplicated_NoDup _) Hnd).
  rewrite length_fmap, Hcontents, Hmds, !Nat.eqb_refl. reflexivity.
Qed.

(** C2.  Storing a message under [id] and then storing different
    content under the same [id]: neither call is an error, exactly one
    record remains for [id] and the count does not increase, but the
    second call changes nothing.  The record found under [id] is the one
    that was there before the second call; in a store that did not hold
    [id] it is the record of the first call (its content, its metadata
    and the embedding of its content), not of the latest.  A second
    batch does the same, and one batch that carries [id] twice is
    refused with [DuplicateIDError] and stores nothing. *)
Theorem reingestion_keeps_first (id content1 content2 : string)
    (md1 md2 : metadata_dict) (c : collection) :
  let r1 := add_message id content1 md1 c in
  let r2 := add_message id content2 md2 r1.2 in
  r1.1 = Return tt ∧ r2.1 = Return tt
  ∧ r2.2 = r1.2
  ∧ length (filter (λ kv, kv.1 = id) (map_to_list r2.2)) = 1%nat
  ∧ count r2.2 = count r1.2
  ∧ (c !! id = None →
     r2.2 !! id = Some (mk_record (encode content1) content1 md1))
  ∧ (∀ other, other ≠ id → r2.2 !! other = c !! other)
  ∧ add_messages_batch [id] [content2] [md2]
      (add_messages_batch [id] [content1] [md1] c).2 = (Return tt, r1.2)
  ∧ add_messages_batch [id; id] [content1; content2] [md1; md2] c
    = (Raise (mk_exn DuplicateIDError "Expected IDs to be unique"), c).
Proof.
  intros r1 r2.
  assert (is_Some (r1.2 !! id)) as [r Hr].
  { subst r1. rewrite add_message_run. cbn [snd].
    destruct (c !! id) as [r|] eqn:Hid; [by rewrite Hid|].
    by rewrite lookup_insert_eq. }
  assert (r2 = (Return tt, r1.2)) as Hr2.
  { subst r2. rewrite add_message_run. by rewrite Hr. }
  rewrite Hr2. cbn [fst snd].
  split; [done|]. split; [done|]. split; [done|]. split; [|split; [done|]].
  { apply (one_binding_per_key _ _ r).
    - apply NoDup_fst_map_to_list.
    - by apply elem_of_map_to_list. }
  split; [|split; [|split]].
  - intros Hid. subst r1. rewrite add_message_run. cbn [snd].
    rewrite Hid. apply lookup_insert_eq.
  - intros other Hother. subst r1. rewrite add_message_run. cbn [snd].
    destruct (c !! id); [done|]. by rewrite lookup_insert_ne.
  - exact Hr2.
  - unfold VectorStore.add_messages_batch, collection_add.
    cbn [duplicated existsb]. by rewrite String.eqb_refl.
Qed.

(** A later batch does not replace what is stored: under every
    identifier the store holds afterwards what it held before, or else
    the first record the batch carries for it; a batch of identifiers
    that are all stored changes nothing. *)
Lemma add_messages_batch_keeps_stored ids contents mds (c : collection) :
  ids ≠ [] → NoDup ids →
  length contents = length ids → length mds = length ids →
  let r := add_messages_batch ids contents mds c in
  r.1 = Return tt
  ∧ (∀ id, r.2 !! id
           = match c !! id with
             | Some stored => Some stored
             | None => earliest id ids (encode <$> contents) contents mds
             end)
  ∧ (Forall (λ i, is_Some (c !! i)) ids → r.2 = c).
Proof.
  intros Hne Hnd Hcontents Hmds r. subst r.
  rewrite add_messages_batch_run by done. cbn [fst snd].
  split; [done|]. split.
  - intros id. apply add_records_lookup.
  - apply add_records_known.
Qed.

End Gateway.

(** C2 as the specification words it fails: after a second ingestion
    under the same identifier the record still holds the first content,
    not the latest. *)
Lemma reingestion_overwrites_counterexample :
  let md := [("url", VStr "https://example.com/msg_001");
             ("author", VStr "Alice")] in
  let c1 := (add_message length_encoder "msg_001" "Budget is 10k." md ∅).2 in
  let c2 := (add_message length_encoder "msg_001" "Budget is 12k." md c1).2 in
  rec_document <$> c2 !! "msg_001" = Some "Budget is 10k."
  ∧ rec_document <$> c2 !! "msg_001" ≠ Some "Budget is 12k.".
Proof. vm_compute. split; [reflexivity | discriminate]. Qed.

Lemma reingestion_keeps_first_witness :
  let md := [("url", VStr "https://example.com/msg_001");
             ("author", VStr "Alice")] in
  let c1 := (add_message length_encoder "msg_001" "Budget is 10k." md ∅).2 in
  let c2 := (add_message length_encoder "msg_001" "Budget is 12k." md c1).2 in
  c2 !! "msg_001"
  = Some (mk_record (length_encoder "Budget is 10k.") "Budget is 10k." md).
Proof.
  cbv zeta.
  apply (reingestion_keeps_first length_encoder "msg_001" "Budget is 10k."
           "Budget is 12k.").
  reflexivity.
Defined.

End VectorStoreFacts.

(** ** Message ingestion *)
Module MessageProcessorFacts.
Import VectorStore MessageProcessor IngestionSpec Fixtures.

Lemma present_str_field key (d : list (string * value)) :
  dict_contains key d = true → field_is_str key d = true →
  dict_lookup key d = Some (VStr (str_field key d)).
Proof.
  unfold dict_contains, field_is_str, str_field.
  destruct (dict_lookup key d) as [[]|]; done.
Qed.

Lemma str_items_of_strings (l : list value) :
  forallb is_str l = true → str_items l = Return (str_of <$> l).
Proof.
  induction l as [|v l IH]; [done|]. cbn [forallb].
  intros [Hv Hl]%andb_true_iff. destruct v; try done.
  cbn [str_items]. by rewrite IH.
Qed.

Lemma as_strs_of_strings {A} (f : A → string) (l : list A) :
  as_strs ((λ a, VStr (f a)) <$> l) = Return (f <$> l).
Proof.
  induction l as [|a l IH]; [done|].
  cbn [fmap list_fmap as_strs as_str mbind outcome_bind].
  change (list_fmap A value (λ a, VStr (f a)) l)
    with ((λ a, VStr (f a)) <$> l).
  by rewrite IH.
Qed.

(** On a record of the input format, [validate_message] returns, and
    returns what the specification calls valid. *)
Lemma validate_message_conforming (m : message) :
  conforms m = true → validate_message m = Return (valid_record m).
Proof.
  unfold conforms, validate_message, valid_record.
  intros [Hfields _]%andb_true_iff.
  destruct (forallb (λ field, dict_contains field m) required_fields) eqn:Hreq;
    [|done].
  cbn [forallb required_fields] in Hfields, Hreq.
  repeat (apply andb_true_iff in Hfields as [? Hfields]).
  repeat (apply andb_true_iff in Hreq as [? Hreq]).
  cbn [getitem].
  rewrite (present_str_field "content" m) by done.
  cbn. by destruct (String.eqb _ _).
Qed.

(** On a valid record of the input format, the metadata dictionary is
    built without failure and is the normalised one. *)
Lemma build_metadata_conforming (m : message) :
  conforms m = true → valid_record m = true →
  build_metadata m = Return (normalize_metadata m).
Proof.
  unfold conforms, valid_record.
  intros [Hfields Hmeta]%andb_true_iff [Hreq _]%andb_true_iff.
  cbn [forallb required_fields] in Hfields, Hreq.
  repeat (apply andb_true_iff in Hfields as [? Hfields]).
  repeat (apply andb_true_iff in Hreq as [? Hreq]).
  unfold build_metadata, normalize_metadata. cbn [getitem value_get].
  rewrite (present_str_field "url" m), (present_str_field "author" m),
    (present_str_field "timestamp" m) by done.
  cbn [mbind outcome_bind].
  destruct (dict_lookup "metadata" m) as [[| | | | | |extra]|]; try done.
  - unfold default; cbn [from_option id value_get mbind outcome_bind].
    apply andb_true_iff in Hmeta as [_ Htags].
    destruct (dict_lookup "tags" extra) as [[| | | | |tags|]|]; try done.
    cbn [from_option id value_join mbind outcome_bind].
    by rewrite str_items_of_strings.
Qed.

(** The batch [collect] returns for records of the input format: the
    valid ones appended, in order, to what was collected before. *)
Lemma collect_conforming (messages : list message) :
  Forall (λ m, conforms m = true) messages →
  ∀ b,
    let valid := filter (λ m, valid_record m = true) messages in
    collect messages b
    = Return {| valid_messages := valid_messages b ++ valid;
                message_ids :=
                  message_ids b
                  ++ ((λ m, VStr (str_field "message_id" m)) <$> valid);
                contents :=
                  contents b ++ ((λ m, VStr (str_field "content" m)) <$> valid);
                metadatas := metadatas b ++ (normalize_metadata <$> valid) |}.
Proof.
  induction 1 as [|m messages Hm _ IH]; intros b.
  - cbn [filter list_filter fmap list_fmap collect].
    rewrite !app_nil_r. by destruct b.
  - cbn zeta. cbn [collect].
    rewrite (validate_message_conforming m Hm). cbn [mbind outcome_bind].
    destruct (valid_record m) eqn:Hvalid; cbn [negb].
    + rewrite filter_cons_True by done.
      rewrite (build_metadata_conforming m Hm Hvalid).
      pose proof Hm as [Hfields _]%andb_true_iff.
      pose proof Hvalid as [Hreq _]%andb_true_iff.
      cbn [forallb required_fields] in Hfields, Hreq.
      repeat (apply andb_true_iff in Hfields as [? Hfields]).
      repeat (apply andb_true_iff in Hreq as [? Hreq]).
      cbn [getitem].
      rewrite (present_str_field "message_id" m),
        (present_str_field "content" m) by done.
      cbn [mbind outcome_bind].
      rewrite IH. cbn [valid_messages message_ids contents metadatas].
      cbn [fmap list_fmap]. by rewrite <- !app_assoc.
    + rewrite filter_cons_False by (by rewrite Hvalid). apply IH.
Qed.

(** The loop over a list in two parts is the loop over the first part
    followed by the loop over the second. *)
Lemma collect_app (before after : list message) :
  ∀ b, collect (before ++ after) b = b' ← collect before b; collect after b'.
Proof.
  induction before as [|m before IH]; intros b; [reflexivity|].
  cbn [app collect].
  destruct (validate_message m) as [[|]|e]; cbn [mbind outcome_bind negb];
    [|apply IH|done].
  destruct (getitem (VDict m) "message_id") as [message_id|e];
    cbn [mbind outcome_bind]; [|done].
  destruct (getitem (VDict m) "content") as [content|e];
    cbn [mbind outcome_bind]; [|done].
  destruct (build_metadata m) as [md|e]; cbn [mbind outcome_bind]; [|done].
  apply IH.
Qed.

(** A record that has the five required fields but whose content is not
    a string, or that passes validation but whose metadata is not a
    dictionary, stops the loop with [AttributeError], whatever was
    collected and whatever follows. *)
Lemma collect_malformed (m : message) (after : list message) (b : batch) :
  forallb (λ field, dict_contains field m) required_fields = true →
  (∃ v, dict_lookup "content" m = Some v ∧ is_str v = false)
  ∨ (valid_record m = true
     ∧ ∃ v, dict_lookup "metadata" m = Some v ∧ ∀ d, v ≠ VDict d) →
  ∃ e, exn_class e = AttributeError ∧ collect (m :: after) b = Raise e.
Proof.
  intros Hreq [(v & Hcontent & Hv) | (Hvalid & v & Hmeta & Hv)].
  - exists (mk_exn AttributeError "object has no attribute 'strip'").
    split; [done|]. cbn [collect]. unfold validate_message.
    rewrite Hreq. cbn [getitem]. rewrite Hcontent.
    by destruct v.
  - exists (mk_exn AttributeError "object has no attribute 'get'").
    split; [done|]. cbn [collect].
    pose proof Hvalid as [_ Hcontent]%andb_true_iff.
    destruct (dict_lookup "content" m) as [[| | | |s| |]|] eqn:Hc; try done.
    unfold validate_message. rewrite Hreq. cbn [getitem]. rewrite Hc.
    cbn [value_strip mbind outcome_bind].
    destruct (String.eqb (strip s) "") eqn:Hblank; [done|].
    cbn [negb].
    cbn [forallb required_fields] in Hreq.
    repeat (apply andb_true_iff in Hreq as [? Hreq]).
    unfold dict_contains in *.
    destruct (dict_lookup "message_id" m); [|done].
    cbn [mbind outcome_bind negb].
    unfold build_metadata. cbn [getitem value_get].
    destruct (dict_lookup "url" m); [|done].
    destruct (dict_lookup "author" m); [|done].
    destruct (dict_lookup "timestamp" m); [|done].
    cbn [mbind outcome_bind]. rewrite Hmeta.
    unfold default; cbn [from_option id mbind outcome_bind].
    destruct v as [| | | | | |d]; try reflexivity. by destruct (Hv d).
Qed.

Section Processor.
Variable encode : string → embedding.

(** Within the input format the loop does not fail, and each record is
    judged on its own: the batch collected is that of the valid
    records, and it is handed to the store in one call.  When the valid
    records have distinct identifiers the store takes it, and the count
    returned is the number of valid records. *)
Lemma process_messages_batch_conforming (messages : list message)
    (c : collection) :
  Forall (λ m, conforms m = true) messages →
  let valid := filter (λ m, valid_record m = true) messages in
  NoDup (str_field "message_id" <$> valid) →
  Forall (λ m, validate_message m = Return (valid_record m)) messages
  ∧ process_messages_batch encode messages c
    = (Return (length valid),
       add_records
         (str_field "message_id" <$> valid)
         (encode <$> (str_field "content" <$> valid))
         (str_field "content" <$> valid)
         (normalize_metadata <$> valid) c).
Proof.
  intros Hconf valid Hnd. split.
  - eapply Forall_impl; [exact Hconf|]. apply validate_message_conforming.
  - unfold process_messages_batch, mbind, prog_bind, lift.
    rewrite (collect_conforming messages Hconf). cbn zeta.
    cbn [valid_messages message_ids contents metadatas app].
    fold valid. destruct valid as [|m valid'] eqn:Hvalid; [reflexivity|].
    rewrite <- Hvalid in *. unfold vector_store_add_messages_batch, mbind,
      prog_bind, lift.
    rewrite !as_strs_of_strings.
    rewrite VectorStoreFacts.add_messages_batch_run;
      [| by rewrite Hvalid | done | by rewrite !length_fmap
       | by rewrite !length_fmap].
    by rewrite Hvalid.
Qed.

(** Two valid records under one identifier: the store refuses the whole
    batch, and nothing is stored. *)
Lemma process_messages_batch_repeated_id (messages : list message)
    (c : collection) :
  Forall (λ m, conforms m = true) messages →
  let valid := filter (λ m, valid_record m = true) messages in
  ¬ NoDup (str_field "message_id" <$> valid) →
  process_messages_batch encode messages c
  = (Raise (mk_exn DuplicateIDError "Expected IDs to be unique"), c).
Proof.
  intros Hconf valid Hdup.
  unfold process_messages_batch, mbind, prog_bind, lift.
  rewrite (collect_conforming messages Hconf). cbn zeta.
  cbn [valid_messages message_ids contents metadatas app].
  fold valid. destruct valid as [|m valid'] eqn:Hvalid.
  { destruct Hdup. constructor. }
  rewrite <- Hvalid in *. unfold vector_store_add_messages_batch, mbind,
    prog_bind, lift.
  rewrite !as_strs_of_strings.
  unfold add_messages_batch, collection_add.
  destruct (duplicated (str_field "message_id" <$> valid)) eqn:Hd.
  - by rewrite Hvalid.
  - by apply VectorStoreFacts.duplicated_NoDup in Hd.
Qed.

(** C7.  The batch does abort on a single bad record.  A record that
    has the five required fields but whose content is not a string (for
    one, [null]), or a record that passes validation but whose
    [metadata] is not a dictionary, makes [process_messages_batch] raise
    [AttributeError]: from [validate_message] in the first case, from
    building the metadata in the second.  No count is returned and
    nothing is stored, not even the valid records that came before it in
    the list or that follow it. *)
Theorem process_messages_batch_aborts_on_malformed_record
    (before after : list message) (m : message) (c : collection) :
  Forall (λ m, conforms m = true) before →
  forallb (λ field, dict_contains field m) required_fields = true →
  (∃ v, dict_lookup "content" m = Some v ∧ is_str v = false)
  ∨ (valid_record m = true
     ∧ ∃ v, dict_lookup "metadata" m = Some v ∧ ∀ d, v ≠ VDict d) →
  ∃ e, exn_class e = AttributeError
       ∧ process_messages_batch encode (before ++ m :: after) c = (Raise e, c).
Proof.
  intros Hconf Hreq Hbad.
  pose proof (collect_conforming before Hconf (mk_batch [] [] [] [])) as Hbefore.
  cbn zeta in Hbefore.
  destruct (collect_malformed m after
              {| valid_messages :=
                   [] ++ filter (λ m, valid_record m = true) before;
                 message_ids :=
                   [] ++ ((λ m, VStr (str_field "message_id" m))
                            <$> filter (λ m, valid_record m = true) before);
                 contents :=
                   [] ++ ((λ m, VStr (str_field "content" m))
                            <$> filter (λ m, valid_record m = true) before);
                 metadatas :=
                   [] ++ (normalize_metadata
                            <$> filter (λ m, valid_record m = true) before) |}
              Hreq Hbad) as (e & He & Hstop).
  exists e. split; [exact He|].
  unfold process_messages_batch, mbind, prog_bind, lift.
  rewrite collect_app. cbn [valid_messages message_ids contents metadatas] in *.
  rewrite Hbefore. cbn [mbind outcome_bind].
  by rewrite Hstop.
Qed.

End Processor.

Lemma process_messages_batch_aborts_on_malformed_record_witness :
  ∃ e, exn_class e = AttributeError
       ∧ process_messages_batch length_encoder
           (sample_batch ++ [("message_id", VStr "msg_004");
                             ("url", VStr "https://example.com/4");
                             ("author", VStr "Erin");
                             ("timestamp", VStr "2025-01-01T13:00:00Z");
                             ("content", VNone)] :: []) ∅
         = (Raise e, ∅).
Proof.
  apply (process_messages_batch_aborts_on_malformed_record length_encoder
           sample_batch []).
  - repeat constructor.
  - reflexivity.
  - left. exists VNone. by split.
Defined.

(** The same batch without the malformed record is ingested: two of its
    four records are valid and stored. *)
Example process_messages_batch_sample :
  ∃ c, process_messages_batch length_encoder sample_batch ∅ = (Return 2%nat, c)
       ∧ collection_count c = 2%nat
       ∧ rec_metadata <$> c !! "msg_001"
         = Some [("url", VStr "https://example.com/1");
                 ("author", VStr "Alice");
                 ("timestamp", VStr "2025-01-01T10:00:00Z");
                 ("channel", VStr "planning");
                 ("tags", VStr "budget,q2")].
Proof.
  eexists. split; [|split].
  - apply (process_messages_batch_conforming length_encoder sample_batch ∅).
    + repeat constructor.
    + apply VectorStoreFacts.duplicated_NoDup. reflexivity.
  - vm_compute. reflexivity.
  - vm_compute. reflexivity.
Qed.

End MessageProcessorFacts.

(** ** Query engine *)
Module QueryEngineFacts.
Import VectorStore QueryEngine QuerySpec Fixtures.

Lemma append_assoc (a b c : string) : (a +:+ b) +:+ c = a +:+ (b +:+ c).
Proof.
  induction a as [|x a IH]; [done|].
  change (String x ((a +:+ b) +:+ c) = String x (a +:+ (b +:+ c))).
  by f_equal.
Qed.

Lemma append_empty_r (a : string) : a +:+ "" = a.
Proof.
  induction a as [|x a IH]; [done|].
  change (String x (a +:+ "") = String x a). by f_equal.
Qed.

(** *** What [search] returns *)

Lemma index_nth {A} (l : list A) (i : nat) (d : A) :
  (i < length l)%nat → index l i = Return (nth i l d).
Proof.
  intros Hi. unfold index. rewrite nth_lookup.
  by destruct (lookup_lt_is_Some_2 l i Hi) as [x ->].
Qed.

Lemma optional_entry {A} (n : nat) (o : option (list (list A))) (i : nat) (d : A) :
  covers n o = true → (i < n)%nat →
  (if truthy o then index0 o i else Return d) = Return (nth i (row0 o) d).
Proof.
  unfold covers. destruct o as [[|row rest]|]; cbn [truthy row0 negb orb].
  - by destruct i.
  - intros Hn%Nat.leb_le Hi. unfold index0. cbn.
    apply index_nth. lia.
  - by destruct i.
Qed.

Lemma ids_entry (results : query_result) (i : nat) :
  (i < hits results)%nat →
  index0 (Some (ids results)) i
  = Return (nth i (row0 (Some (ids results))) "").
Proof.
  unfold hits. destruct (ids results) as [|ids0 rest]; cbn [row0 length].
  - lia.
  - intros Hi. unfold index0. cbn. by apply index_nth.
Qed.

(** The loop of [search] keeps, in order, the candidates that pass the
    threshold. *)
Lemma format_results_spec (results : query_result) (min : option Q) :
  well_formed results = true →
  ∀ indices acc,
    Forall (λ i, (i < hits results)%nat) indices →
    format_results results min indices acc
    = Return (acc ++ List.filter (passes min) (candidate results <$> indices)).
Proof.
  unfold well_formed. intros [[Hdist Hdocs]%andb_true_iff Hmeta]%andb_true_iff.
  induction indices as [|i indices IH]; intros acc Hin.
  - cbn. by rewrite app_nil_r.
  - apply Forall_cons in Hin as [Hi Hin]. cbn [format_results].
    rewrite (optional_entry _ _ i 0%Q Hdist Hi). cbn [mbind outcome_bind].
    cbn [fmap list_fmap List.filter].
    assert ((match min with
             | Some m => Qltb (1 - nth i (row0 (distances results)) 0)%Q m
             | None => false
             end) = negb (passes min (candidate results i))) as ->.
    { destruct min as [m|]; [|done]. unfold passes, Qltb. by cbn [candidate score]. }
    destruct (passes min (candidate results i)); cbn [negb].
    + rewrite (ids_entry results i Hi). cbn [mbind outcome_bind].
      rewrite (optional_entry _ _ i "" Hdocs Hi). cbn [mbind outcome_bind].
      change (@Return (list (string * value)) [])
        with (@Return metadata_dict []).
      rewrite (optional_entry (A:=metadata_dict) _ _ i [] Hmeta Hi).
      cbn [mbind outcome_bind].
      rewrite IH by done. by rewrite <- app_assoc.
    + by apply IH.
Qed.

Section Engine.
Context {L : Type}.
Variable encode : string → embedding.
Variable collection_query : collection → list embedding → Z → query_result.
Variable llm_complete : string → string → L → outcome string * L.
Variable str_format : string → string → string → string.
Variable py_str : value → string.

Abbreviation search := (search encode collection_query).
Abbreviation query := (query encode collection_query llm_complete str_format py_str).
Abbreviation format_response := (format_response py_str).

Implicit Types (w : @world L) (e : engine) (r : response).

Lemma search_spec (question : string) (k : Z) (min : option Q) (c : collection) :
  let raw := collection_query c [encode question] k in
  well_formed raw = true →
  search question k min c = Return (List.filter (passes min) (candidates raw)).
Proof.
  intros raw Hwf. unfold VectorStore.search. fold raw.
  unfold candidates, hits.
  destruct (ids raw) as [|ids0 rest] eqn:Hids; [done|].
  rewrite format_results_spec; [done | done |].
  apply Forall_seq. intros i Hi. unfold hits. rewrite Hids. cbn. lia.
Qed.

(** A response carries one source per search result. *)
Lemma query_sources question e w r w' :
  query question e w = (Return r, w') →
  ∃ results,
    search question (top_k e) (Some (min_similarity e)) (vector_store w)
      = Return results
    ∧ length (sources r) = length results
    ∧ context_used r = results.
Proof.
  unfold QueryEngine.query, vector_store_search, mbind, prog_bind.
  destruct (search question _ _ _) as [results|err]; [|done].
  destruct results as [|result results].
  - intros [= <- <-]. by exists [].
  - unfold complete.
    destruct (llm_complete _ _ _) as [[a|err] l]; [|done].
    intros [= <- <-]. exists (result :: results).
    cbn [sources context_used]. split; [done|]. split; [|done].
    apply (length_fmap make_source (result :: results)).
Qed.

(** The other return of [query], taken when the search found something,
    does count its sources. *)
Lemma query_counts_sources question e w r w' :
  query question e w = (Return r, w') →
  sources r ≠ [] →
  num_sources r = Some (length (sources r)).
Proof.
  unfold QueryEngine.query, vector_store_search, mbind, prog_bind.
  destruct (search question _ _ _) as [results|err]; [|done].
  destruct results as [|result results].
  - by intros [= <- <-].
  - unfold complete.
    destruct (llm_complete _ _ _) as [[a|err] l]; [|done].
    by intros [= <- <-].
Qed.

(** When the search and the LLM return, so does the query. *)
Lemma query_returns question e w results :
  search question (top_k e) (Some (min_similarity e)) (vector_store w)
    = Return results →
  (∀ prompt system l, ∃ a l', llm_complete prompt system l = (Return a, l')) →
  ∃ r w', query question e w = (Return r, w').
Proof.
  intros Hsearch Hllm.
  unfold QueryEngine.query, vector_store_search, mbind, prog_bind.
  rewrite Hsearch. destruct results as [|result results]; [by eauto|].
  unfold complete.
  destruct (Hllm (str_format (query_template e)
                    (_format_context py_str (result :: results)) question)
              (system_prompt e) (llm_client w)) as (a & l' & ->).
  by eauto.
Qed.

(** C1 on the code.  When the search yields no result at or above the
    threshold, [query] returns the fixed fallback answer with an empty
    list of sources and an empty context, and the LLM is not called;
    but the dictionary returned has no ["num_sources"] entry at all,
    where the specification reads the value 0. *)
Theorem query_short_circuit question e w :
  search question (top_k e) (Some (min_similarity e)) (vector_store w)
    = Return [] →
  query question e w
  = (Return {| answer := fallback_answer;
               sources := [];
               context_used := [];
               num_sources := None |}, w).
Proof.
  intros Hsearch.
  unfold QueryEngine.query, vector_store_search, mbind, prog_bind.
  by rewrite Hsearch.
Qed.

(** Raising the threshold never lets the loop of [search] keep more
    results, whatever the index answered: if the loop returns at both
    thresholds, it has added at [t2] no more than at [t1]. *)
Lemma format_results_monotone (results : query_result) (t1 t2 : Q) :
  (t1 <= t2)%Q →
  ∀ indices acc1 acc2 l1 l2,
    format_results results (Some t1) indices acc1 = Return l1 →
    format_results results (Some t2) indices acc2 = Return l2 →
    (length l2 + length acc1 ≤ length l1 + length acc2)%nat.
Proof.
  intros Hle. induction indices as [|i indices IH];
    intros acc1 acc2 l1 l2 H1 H2.
  - injection H1 as <-. injection H2 as <-. lia.
  - cbn [format_results] in H1, H2.
    destruct (if truthy (distances results)
              then index0 (distances results) i else Return 0%Q)
      as [distance|err]; [|done].
    cbn [mbind outcome_bind] in H1, H2. unfold Qltb in H1, H2.
    destruct (Qle_bool t1 (1 - distance)) eqn:C1;
      destruct (Qle_bool t2 (1 - distance)) eqn:C2; cbn [negb] in H1, H2.
    + destruct (index0 (Some (ids results)) i) as [id|err]; [|done].
      destruct (if truthy (documents results)
                then index0 (documents results) i else Return "")
        as [doc|err]; [|done].
      destruct (if truthy (metadatas results)
                then index0 (metadatas results) i else Return [])
        as [md|err]; [|done].
      cbn [mbind outcome_bind] in H1, H2.
      pose proof (IH _ _ _ _ H1 H2) as Hlen.
      rewrite !length_app in Hlen. cbn [length] in Hlen. lia.
    + destruct (index0 (Some (ids results)) i) as [id|err]; [|done].
      destruct (if truthy (documents results)
                then index0 (documents results) i else Return "")
        as [doc|err]; [|done].
      destruct (if truthy (metadatas results)
                then index0 (metadatas results) i else Return [])
        as [md|err]; [|done].
      cbn [mbind outcome_bind] in H1.
      pose proof (IH _ _ _ _ H1 H2) as Hlen.
      rewrite length_app in Hlen. cbn [length] in Hlen. lia.
    + apply Qle_bool_iff in C2.
      assert (Qle_bool t1 (1 - distance) = true) as Habs
        by (apply Qle_bool_iff; lra).
      congruence.
    + by apply (IH _ _ _ _ H1 H2).
Qed.

Lemma search_monotone question (k : Z) (t1 t2 : Q) (c : collection) l1 l2 :
  (t1 <= t2)%Q →
  search question k (Some t1) c = Return l1 →
  search question k (Some t2) c = Return l2 →
  (length l2 ≤ length l1)%nat.
Proof.
  unfold VectorStore.search. intros Hle.
  destruct (ids (collection_query c [encode question] k)) as [|ids0 rest].
  - intros [= <-] [= <-]. done.
  - intros H1 H2.
    pose proof (format_results_monotone _ t1 t2 Hle _ _ _ _ _ H1 H2) as Hlen.
    cbn [length] in Hlen. lia.
Qed.

(** C8.  For a fixed question, store and engine, and thresholds
    [t1 <= t2]: whenever [query] returns a response at both thresholds,
    the response at [t2] has no more sources than the one at [t1].  And
    [query] does return at both thresholds when the answer of the index is
    well formed (distances, documents and metadata run parallel to the
    identifiers) and the LLM answers every prompt. *)
Theorem threshold_monotone question e (t1 t2 : Q) w :
  (t1 <= t2)%Q →
  let e1 := with_min_similarity t1 e in
  let e2 := with_min_similarity t2 e in
  (∀ r1 r2 w1 w2,
     query question e1 w = (Return r1, w1) →
     query question e2 w = (Return r2, w2) →
     (length (sources r2) ≤ length (sources r1))%nat)
  ∧ (well_formed
       (collection_query (vector_store w) [encode question] (top_k e)) = true →
     (∀ prompt system l, ∃ a l', llm_complete prompt system l = (Return a, l')) →
     ∃ r1 r2 w1 w2,
       query question e1 w = (Return r1, w1)
       ∧ query question e2 w = (Return r2, w2)
       ∧ (length (sources r2) ≤ length (sources r1))%nat).
Proof.
  intros Hle e1 e2.
  assert (∀ r1 r2 w1 w2,
            query question e1 w = (Return r1, w1) →
            query question e2 w = (Return r2, w2) →
            (length (sources r2) ≤ length (sources r1))%nat) as Hquery.
  { intros r1 r2 w1 w2 (l1 & Hl1 & Hn1 & _)%query_sources
      (l2 & Hl2 & Hn2 & _)%query_sources.
    cbn [e1 e2 with_min_similarity top_k min_similarity] in Hl1, Hl2.
    rewrite Hn1, Hn2. by apply (search_monotone _ _ _ _ _ _ _ Hle Hl1 Hl2). }
  split; [exact Hquery|].
  intros Hwf Hllm.
  pose proof (search_spec question (top_k e) (Some t1) (vector_store w) Hwf)
    as Hs1.
  pose proof (search_spec question (top_k e) (Some t2) (vector_store w) Hwf)
    as Hs2.
  destruct (query_returns question e1 w _ Hs1 Hllm) as (r1 & w1 & Hr1).
  destruct (query_returns question e2 w _ Hs2 Hllm) as (r2 & w2 & Hr2).
  exists r1, r2, w1, w2. eauto.
Qed.

(** *** The formatted response *)

Lemma source_lines_fold (srcs : list source) (output : string) :
  fold_left (λ output s, output +:+ source_line py_str s) srcs output
  = output +:+ concat_all (source_line py_str <$> srcs).
Proof.
  revert output. induction srcs as [|s srcs IH]; intros output.
  - cbn. by rewrite append_empty_r.
  - cbn [fold_left fmap list_fmap concat_all foldr].
    rewrite IH. apply append_assoc.
Qed.

End Engine.

Lemma append_cons (a : ascii) (s t : string) :
  String a s +:+ t = String a (s +:+ t).
Proof. reflexivity. Qed.

Lemma append_empty_l (t : string) : "" +:+ t = t.
Proof. reflexivity. Qed.

Lemma startswith_spec (needle hay : string) :
  startswith needle hay = true ↔ ∃ after, hay = needle +:+ after.
Proof.
  revert hay. induction needle as [|a needle IH]; intros hay.
  - cbn [startswith]. split; [intros _; by exists hay | done].
  - destruct hay as [|b hay]; cbn [startswith].
    + split; [done|]. intros [after H]. by rewrite append_cons in H.
    + rewrite andb_true_iff, Ascii.eqb_eq, IH. split.
      * intros [-> [after ->]]. by exists after.
      * intros [after H]. rewrite append_cons in H. injection H as -> ->.
        split; [done | by exists after].
Qed.

(** The substring test decides occurrence. *)
Lemma str_contains_spec (needle hay : string) :
  str_contains needle hay = true ↔ occurs_in needle hay.
Proof.
  unfold occurs_in. induction hay as [|b hay IH].
  - cbn [str_contains]. rewrite orb_false_r, startswith_spec. split.
    + intros [after ->]. by exists "", after.
    + intros (before & after & H). destruct before as [|x before].
      * by exists after.
      * by rewrite append_cons in H.
  - cbn [str_contains]. rewrite orb_true_iff, startswith_spec, IH. split.
    + intros [[after ->] | (before & after & ->)].
      * by exists "", after.
      * by exists (String b before), after.
    + intros (before & after & H). destruct before as [|x before].
      * left. by exists after.
      * right. rewrite append_cons in H. injection H as -> ->.
        by exists before, after.
Qed.

Section Formatting.
Variable py_str : value → string.

(** C9.  [format_response] returns the answer verbatim when the
    response has no sources.  When it has sources and the text
    ["Sources:"] does not occur in the answer, it returns the answer
    followed by the sources section: the heading, then one line
    [- {preview} by {author} ({url})] per source, in the order of the
    sources.  When it has sources and ["Sources:"] occurs in the
    answer, it returns the answer unchanged. *)
Theorem format_response_spec (r : response) :
  (sources r = [] → format_response py_str r = answer r)
  ∧ (sources r ≠ [] → ¬ occurs_in "Sources:" (answer r) →
       format_response py_str r
       = answer r +:+ sources_section (fmt py_str) (sources r))
  ∧ (sources r ≠ [] → occurs_in "Sources:" (answer r) →
       format_response py_str r = answer r).
Proof.
  unfold format_response. split; [|split].
  - by intros ->.
  - intros Hsrc Hnot. destruct (sources r) as [|s srcs] eqn:Hs; [done|].
    destruct (str_contains "Sources:" (answer r)) eqn:Hc.
    + by apply str_contains_spec in Hc.
    + cbn [negb]. rewrite source_lines_fold, append_assoc. reflexivity.
  - intros Hsrc Hocc. destruct (sources r) as [|s srcs] eqn:Hs; [done|].
    apply str_contains_spec in Hocc. by rewrite Hocc.
Qed.

End Formatting.

Lemma query_short_circuit_witness :
  query no_embedding two_hits canned_llm plain_format no_str
    "What was discussed about the weather?" (engine_at (95 # 100)) fresh_world
  = (Return {| answer := fallback_answer;
               sources := [];
               context_used := [];
               num_sources := None |}, fresh_world).
Proof.
  apply (query_short_circuit no_embedding two_hits canned_llm plain_format
           no_str). reflexivity.
Defined.

Lemma threshold_monotone_witness :
  ∃ r1 r2 w1 w2,
    query no_embedding two_hits canned_llm plain_format no_str
      "What was discussed about the budget?" (engine_at 0) fresh_world
      = (Return r1, w1)
    ∧ query no_embedding two_hits canned_llm plain_format no_str
        "What was discussed about the budget?" (engine_at (7 # 10)) fresh_world
      = (Return r2, w2)
    ∧ (length (sources r2) ≤ length (sources r1))%nat.
Proof.
  destruct (threshold_monotone no_embedding two_hits canned_llm plain_format
              no_str "What was discussed about the budget?" (engine_at 0)
              0 (7 # 10) fresh_world) as (_ & Hreturns).
  - unfold Qle. cbn. lia.
  - apply Hreturns; [reflexivity|].
    intros prompt system l. eexists _, _. reflexivity.
Defined.

Lemma format_response_spec_witness :
  format_response no_str budget_response
  = "The Q2 budget allocation was discussed." +:+ nl +:+ nl +:+ "Sources:"
    +:+ nl +:+ "- We need to discuss the budget. by Alice (https://example.com/msg_001)"
    +:+ nl
  ∧ format_response no_str
      {| answer := "Sources: see below";
         sources := sources budget_response;
         context_used := [];
         num_sources := Some 1%nat |}
    = "Sources: see below".
Proof.
  destruct (format_response_spec no_str budget_response) as (_ & Hadd & _).
  split.
  - rewrite Hadd; [reflexivity | done |].
    intros Hocc%str_contains_spec. discriminate Hocc.
  - apply format_response_spec; [done|]. by exists "", " see below".
Defined.

End QueryEngineFacts.


(** * Further properties *)

(** ** Retry wrapper: recovery and degenerate budgets *)
Module ErrorHandlerMore.
Import ErrorHandler MoreSpec MoreFixtures ErrorHandlerFacts.

Section Retry.
Context {S A : Type}.
Variable func : S → outcome A * S.

Implicit Types (w : @world S) (exceptions : list exc_class).

(** The loop against an operation that fails [k] times with retryable
    classes and then returns, with attempts enough left. *)
Lemma attempts_loop_recovers exceptions backoff max_retries k :
  ∀ (j m : nat) delay last w v,
    Z.of_nat j + Z.of_nat k ≤ max_retries →
    (∀ i, (i < k)%nat →
       ∃ e, (func (state_after func i (fstate w))).1 = Raise e
            ∧ isinstance e exceptions = true) →
    (func (state_after func k (fstate w))).1 = Return v →
    let r := attempts_loop func max_retries backoff exceptions
               (Z.of_nat <$> seq j (Datatypes.S k + m)) delay last w in
    r.1 = Return (Some v)
    ∧ calls r.2 = (calls w + Datatypes.S k)%nat
    ∧ slept r.2 = (slept w ++ backoff_delays delay backoff k)%list
    ∧ fstate r.2 = state_after func (Datatypes.S k) (fstate w).
Proof.
  induction k as [|k IH]; intros j m delay last w v Hj Hfails Hok r; subst r.
  - cbn [Nat.add seq fmap list_fmap attempts_loop].
    pose proof (invoke_outcome func w) as Ho.
    pose proof (invoke_calls func w) as Hc.
    pose proof (invoke_slept func w) as Hs.
    pose proof (invoke_fstate func w) as Hf.
    destruct (invoke func w) as [r w']. cbn [fst snd] in *.
    change (state_after func 0 (fstate w)) with (fstate w) in Hok.
    rewrite Hok in Ho. subst r.
    cbn [fst snd backoff_delays]. rewrite app_nil_r.
    repeat split; [lia | done | done].
  - change (Z.of_nat <$> seq j (Datatypes.S (Datatypes.S k) + m))
      with (Z.of_nat j
              :: (Z.of_nat <$> seq (Datatypes.S j) (Datatypes.S k + m))).
    cbn [attempts_loop].
    destruct (Hfails 0%nat ltac:(lia)) as (e & He & Hin).
    change (state_after func 0 (fstate w)) with (fstate w) in He.
    pose proof (invoke_outcome func w) as Ho.
    pose proof (invoke_calls func w) as Hc.
    pose proof (invoke_slept func w) as Hs.
    pose proof (invoke_fstate func w) as Hf.
    destruct (invoke func w) as [r w']. cbn [fst snd] in *.
    rewrite He in Ho. subst r. rewrite Hin.
    replace (Z.of_nat j <? max_retries) with true
      by (symmetry; apply Z.ltb_lt; lia).
    destruct (IH (Datatypes.S j) m (delay * backoff)%Q (Some e)
                (time_sleep delay w') v) as (Hr & Hcalls & Hslept & Hstate).
    + lia.
    + intros i Hi. cbn [time_sleep fstate]. rewrite Hf, <- state_after_succ.
      apply Hfails. lia.
    + cbn [time_sleep fstate]. by rewrite Hf, <- state_after_succ.
    + cbn [time_sleep fstate calls slept] in *.
      rewrite Hr, Hcalls, Hslept, Hstate, Hc, Hs, Hf.
      cbn [backoff_delays]. rewrite <- app_assoc. cbn [app].
      rewrite <- state_after_succ.
      repeat split; lia.
Qed.

(** X1.  An operation that fails [k <= max_retries] times in a row with
    retryable failures and returns [v] on its next invocation: the wrapper
    returns [v], having invoked the operation [k + 1] times and slept [k]
    times, for [delay], [delay * backoff], [delay * backoff * backoff],
    ... in this order.  With [k = 0] the operation is invoked once and
    the wrapper does not sleep. *)
Theorem retry_recovers (max_retries : Z) (delay backoff : Q) exceptions w
    (k : nat) (v : A) :
  Z.of_nat k ≤ max_retries →
  (∀ i, (i < k)%nat →
     ∃ e, (func (state_after func i (fstate w))).1 = Raise e
          ∧ isinstance e exceptions = true) →
  (func (state_after func k (fstate w))).1 = Return v →
  let r := retry_on_error func max_retries delay backoff exceptions w in
  r.1 = Return (Some v)
  ∧ calls r.2 = (calls w + k + 1)%nat
  ∧ slept r.2 = (slept w ++ backoff_delays delay backoff k)%list.
Proof.
  intros Hk Hfails Hok r. subst r. unfold retry_on_error.
  rewrite range_succ by lia.
  replace (Datatypes.S (Z.to_nat max_retries))
    with (Datatypes.S k + (Z.to_nat max_retries - k))%nat by lia.
  destruct (attempts_loop_recovers exceptions backoff max_retries k 0%nat
              (Z.to_nat max_retries - k)%nat delay None w v
              ltac:(lia) Hfails Hok) as (Hr & Hcalls & Hslept & _).
  repeat split; [done | lia | done].
Qed.

(** X2.  With a negative [max_retries] the wrapper never invokes the
    operation: it returns [None] at once, whatever the operation would
    have done, without sleeping. *)
Theorem retry_negative_never_invokes (max_retries : Z) (delay backoff : Q)
    exceptions w :
  max_retries < 0 →
  retry_on_error func max_retries delay backoff exceptions w
  = (Return None, w).
Proof.
  intros Hneg. unfold retry_on_error, range.
  by replace (Z.to_nat (max_retries + 1)) with 0%nat by lia.
Qed.

End Retry.

Lemma retry_recovers_witness :
  let r := retry_on_error flaky_function 3 (1 # 10) 2 [Exception]
             (mk_world 0%nat 0%nat []) in
  r.1 = Return (Some "success")
  ∧ calls r.2 = 3%nat
  ∧ slept r.2 = [(1 # 10)%Q; ((1 # 10) * 2)%Q].
Proof.
  apply (retry_recovers flaky_function 3 (1 # 10) 2 [Exception]
           (mk_world 0%nat 0%nat []) 2 "success").
  - lia.
  - intros i Hi. destruct i as [|[|i]]; [| | lia]; eexists; split; reflexivity.
  - reflexivity.
Defined.

Lemma retry_negative_never_invokes_witness :
  retry_on_error flaky_function (-1) (1 # 10) 2 [Exception]
    (mk_world 0%nat 0%nat [])
  = (Return None, mk_world 0%nat 0%nat []).
Proof. apply retry_negative_never_invokes. lia. Defined.

End ErrorHandlerMore.

(** ** Rate limiter: what the queue keeps *)
Module RateLimiterMore.
Import RateLimiter MoreSpec CacheFacts RateLimiterFacts.

Lemma sorted_suffix (front back : list Q) :
  StronglySorted Qle (front ++ back) → StronglySorted Qle back.
Proof.
  induction front as [|t front IH]; [done|]. cbn [app].
  intros Hs. apply StronglySorted_inv in Hs as [Hs _]. by apply IH.
Qed.

Lemma sorted_snoc (l : list Q) (x : Q) :
  StronglySorted Qle l → Forall (λ t, (t <= x)%Q) l →
  StronglySorted Qle (l ++ [x]).
Proof.
  induction 1 as [|t l Hs IH Hleast]; intros Hx; cbn [app].
  - repeat constructor.
  - apply Forall_cons in Hx as [Htx Hx]. constructor; [by apply IH|].
    apply Forall_app. split; [done|]. by repeat constructor.
Qed.

Lemma purge_ordered now window reqs :
  StronglySorted Qle reqs → StronglySorted Qle (purge now window reqs).
Proof.
  intros Hs. destruct (purge_suffix now window reqs) as [dropped Hd].
  rewrite Hd in Hs. by apply sorted_suffix in Hs.
Qed.

Lemma purge_Forall (P : Q → Prop) now window reqs :
  Forall P reqs → Forall P (purge now window reqs).
Proof.
  intros H. destruct (purge_suffix now window reqs) as [dropped Hd].
  rewrite Hd in H. by apply Forall_app in H as [_ H].
Qed.

(** On an ascending queue, what pruning retains lies in the window. *)
Lemma purge_in_window now window reqs :
  StronglySorted Qle reqs →
  Forall (λ t, (now - t <= window)%Q) (purge now window reqs).
Proof.
  intros Hs. rewrite purge_retains_window by done.
  apply Forall_forall. intros t Hin%list_elem_of_In%filter_In.
  destruct Hin as [_ Hin]. by apply Qle_bool_iff.
Qed.

(** The three ways a call to [acquire] can go: room is found and the
    call returns at once; the limiter has no capacity and an empty queue,
    and the call raises; or the queue is full and the call returns at a
    later time [now'], with the queue pruned again at [now']. *)
Lemma acquire_cases over w :
  (0 <= over)%Q →
  let p := purge (clock w) (window_size (self w)) (requests (self w)) in
  (Z.of_nat (length p) < requests_per_minute (self w)
   ∧ acquire over w = (Return tt, set_requests (p ++ [clock w]) w))
  ∨ (requests_per_minute (self w) ≤ 0 ∧ p = []
     ∧ acquire over w
       = (Raise (mk_exn IndexError "deque index out of range"),
          set_requests [] w))
  ∨ (∃ now',
       requests_per_minute (self w) ≤ Z.of_nat (length p)
       ∧ p ≠ []
       ∧ (clock w <= now')%Q
       ∧ acquire over w
         = (Return tt,
            mk_world now'
              (mk_limiter (requests_per_minute (self w))
                 (window_size (self w))
                 (purge now' (window_size (self w)) p ++ [now'])))).
Proof.
  intros Hover p. unfold acquire. limiter_simpl. fold p.
  destruct (Z.of_nat (length p) >=? requests_per_minute (self w)) eqn:Hfull.
  - rewrite Z.geb_leb in Hfull. apply Z.leb_le in Hfull.
    destruct p as [|oldest rest] eqn:Hp.
    + right. left. cbn [length] in Hfull. repeat split. lia.
    + right. right.
      pose proof (purge_head _ _ _ _ _ Hp) as Hage.
      destruct (Qgtb (window_size (self w) - (clock w - oldest)) 0) eqn:Hsleep.
      * limiter_simpl. eexists. split; [done|]. split; [done|].
        split; [|reflexivity]. apply Qgtb_true in Hsleep. lra.
      * limiter_simpl. eexists. split; [done|]. split; [done|].
        split; [|reflexivity]. lra.
  - left. rewrite Z.geb_leb in Hfull. apply Z.leb_gt in Hfull. by split.
Qed.

(** X3.  The order of the queue is an invariant of every operation of
    the limiter: if the queue is ascending and holds no timestamp later
    than the clock, it is so again after [acquire] (whether it returns or
    raises, with a sleep that does not end early), after
    [get_current_usage], and after time has passed; the clock never goes
    back. *)
Theorem limiter_keeps_order (over dt : Q) (w : world) :
  ordered w → (0 <= over)%Q → (0 <= dt)%Q →
  ordered (acquire over w).2
  ∧ (clock w <= clock (acquire over w).2)%Q
  ∧ ordered (get_current_usage w).2
  ∧ ordered (advance dt w).
Proof.
  intros [Hsorted Hpast] Hover Hdt.
  pose proof (purge_ordered (clock w) (window_size (self w)) _ Hsorted) as Hps.
  pose proof (purge_Forall _ (clock w) (window_size (self w)) _ Hpast) as Hpp.
  assert (ordered (get_current_usage w).2) as Husage by (by split).
  assert (ordered (advance dt w)) as Hadv.
  { split; [done|]. cbn [advance clock self].
    eapply Forall_impl; [exact Hpast|]. intros t Ht. cbn in Ht. lra. }
  destruct (acquire_cases over w Hover)
    as [[_ ->] | [(_ & Hp & ->) | (now' & _ & _ & Hnow & ->)]].
  - split; [| split; [limiter_simpl; lra | done]]. split; limiter_simpl.
    + by apply sorted_snoc.
    + apply Forall_app. split; [done|]. repeat constructor. lra.
  - split; [| split; [limiter_simpl; lra | done]].
    limiter_simpl. split; limiter_simpl; constructor.
  - split; [| split; [by cbn [snd clock] | done]].
    cbn [snd clock]. split; cbn [clock self requests].
    + apply sorted_snoc; [by apply purge_ordered|].
      apply purge_Forall. eapply Forall_impl; [exact Hpp|].
      intros t Ht. cbn in Ht. lra.
    + apply Forall_app. split; [|repeat constructor; lra].
      apply purge_Forall. eapply Forall_impl; [exact Hpp|].
      intros t Ht. cbn in Ht. lra.
Qed.

(** X4.  On an ordered queue, when [acquire] returns, every timestamp
    it retains is at most [window_size] old at the time of return, and the
    newest one is the time of return itself: the request is recorded when
    it is admitted, not when it was asked for. *)
Theorem acquire_retains_window (over : Q) (w w' : world) :
  ordered w → (0 <= over)%Q → (0 <= window_size (self w))%Q →
  acquire over w = (Return tt, w') →
  Forall (λ t, (clock w' - t <= window_size (self w'))%Q) (requests (self w'))
  ∧ last (requests (self w')) = Some (clock w')
  ∧ window_size (self w') = window_size (self w).
Proof.
  intros [Hsorted Hpast] Hover Hwindow Hacq.
  pose proof (purge_ordered (clock w) (window_size (self w)) _ Hsorted) as Hps.
  destruct (acquire_cases over w Hover)
    as [[_ Heq] | [(_ & _ & Heq) | (now' & _ & _ & Hnow & Heq)]];
    rewrite Heq in Hacq; [| done |]; injection Hacq as <-; limiter_simpl.
  - split; [|by rewrite last_snoc]. apply Forall_app. split.
    + by apply purge_in_window.
    + repeat constructor. lra.
  - split; [|by rewrite last_snoc]. apply Forall_app. split.
    + by apply purge_in_window.
    + repeat constructor. lra.
Qed.

(** X5.  A limiter without capacity ([requests_per_minute <= 0]) whose
    window holds no timestamp cannot admit anything: [acquire] raises
    [IndexError] from reading the head of the empty queue, at once and
    without recording a request.  A fresh limiter built with such a
    capacity fails on its first call. *)
Theorem acquire_without_capacity_raises (over : Q) (w : world) :
  requests_per_minute (self w) ≤ 0 →
  purge (clock w) (window_size (self w)) (requests (self w)) = [] →
  acquire over w
  = (Raise (mk_exn IndexError "deque index out of range"), set_requests [] w).
Proof.
  intros Hcap Hempty. unfold acquire. limiter_simpl.
  rewrite Hempty, geb_true by (cbn [length]; lia). reflexivity.
Qed.

Lemma purge_idempotent now window reqs :
  purge now window (purge now window reqs) = purge now window reqs.
Proof.
  destruct (purge now window reqs) as [|oldest rest] eqn:Hp; [done|].
  apply purge_head_in_window. by apply purge_head in Hp.
Qed.

(** Later, pruning retains no more. *)
Lemma purge_later now now' window reqs :
  (now <= now')%Q →
  (length (purge now' window reqs) ≤ length (purge now window reqs))%nat.
Proof.
  intros Hle. induction reqs as [|t reqs IH]; [done|]. cbn [purge].
  destruct (Qgtb (now' - t) window) eqn:Hlate;
    destruct (Qgtb (now - t) window) eqn:Hearly.
  - exact IH.
  - pose proof (purge_length now' window reqs). cbn [length]. lia.
  - apply Qgtb_false in Hlate. apply Qgtb_true in Hearly. lra.
  - done.
Qed.

(** X6.  Reading the usage is stable and never counts up by itself:
    a second [get_current_usage] at the same time reports the same and
    leaves the state as the first one left it, and after any time has
    passed without a call to [acquire] the count reported is no larger. *)
Theorem usage_stable_and_decaying (dt : Q) (w : world) :
  (0 <= dt)%Q →
  get_current_usage (get_current_usage w).2 = get_current_usage w
  ∧ (current_requests (get_current_usage (advance dt w)).1
     ≤ current_requests (get_current_usage w).1)%nat.
Proof.
  intros Hdt. unfold get_current_usage, advance. limiter_simpl. split.
  - by rewrite purge_idempotent.
  - apply purge_later. lra.
Qed.

(** X7.  While [get_remaining_capacity] reports a positive remainder,
    [acquire] admits the request without waiting (the clock does not
    move) and the remainder reported next, at the same time, is smaller by
    exactly one. *)
Theorem acquire_uses_one_slot (over : Q) (w : world) :
  (0 <= window_size (self w))%Q →
  0 < (get_remaining_capacity w).1.1 →
  let w' := (acquire over w).2 in
  (acquire over w).1 = Return tt
  ∧ clock w' = clock w
  ∧ (get_remaining_capacity w').1.1 = (get_remaining_capacity w).1.1 - 1.
Proof.
  intros Hwindow. unfold get_remaining_capacity, get_current_usage.
  limiter_simpl. intros Hroom.
  set (p := purge (clock w) (window_size (self w)) (requests (self w))) in *.
  unfold acquire. limiter_simpl. fold p.
  rewrite geb_false by lia. limiter_simpl.
  assert (purge (clock w) (window_size (self w)) (p ++ [clock w])
          = p ++ [clock w]) as ->.
  { destruct p as [|oldest rest] eqn:Hp.
    - apply purge_head_in_window. lra.
    - cbn [app]. apply purge_head_in_window. by apply purge_head in Hp. }
  rewrite length_app. cbn [length]. repeat split. lia.
Qed.

Lemma limiter_keeps_order_witness :
  let w := mk_world 70 (mk_limiter 1 60 [5%Q; 30%Q]) in
  ordered (acquire 1 w).2 ∧ length (requests (self (acquire 1 w).2)) = 1%nat.
Proof.
  split; [|reflexivity].
  apply (limiter_keeps_order 1 0 (mk_world 70 (mk_limiter 1 60 [5%Q; 30%Q]))).
  - split.
    + repeat constructor; unfold Qle; cbn; lia.
    + repeat constructor; unfold Qle; cbn; lia.
  - unfold Qle; cbn; lia.
  - unfold Qle; cbn; lia.
Defined.

Lemma acquire_retains_window_witness :
  let w := mk_world 70 (mk_limiter 1 60 [5%Q; 30%Q]) in
  Forall (λ t, (clock (acquire 1 w).2 - t <= 60)%Q)
    (requests (self (acquire 1 w).2))
  ∧ last (requests (self (acquire 1 w).2)) = Some (clock (acquire 1 w).2).
Proof.
  destruct (acquire_retains_window 1
              (mk_world 70 (mk_limiter 1 60 [5%Q; 30%Q]))
              (acquire 1 (mk_world 70 (mk_limiter 1 60 [5%Q; 30%Q]))).2)
    as (Hwin & Hlast & _).
  - split; repeat constructor; unfold Qle; cbn; lia.
  - unfold Qle; cbn; lia.
  - unfold Qle; cbn; lia.
  - reflexivity.
  - split; [exact Hwin | exact Hlast].
Defined.

Lemma acquire_without_capacity_raises_witness :
  (acquire 0 (mk_world 0 (init 0))).1
  = Raise (mk_exn IndexError "deque index out of range").
Proof.
  rewrite (acquire_without_capacity_raises 0 (mk_world 0 (init 0)));
    [reflexivity | cbn; lia | reflexivity].
Defined.

Lemma usage_stable_and_decaying_witness :
  let w := mk_world 50 (mk_limiter 5 60 [5%Q; 30%Q]) in
  (current_requests (get_current_usage (advance 20 w)).1
   ≤ current_requests (get_current_usage w).1)%nat.
Proof.
  apply (usage_stable_and_decaying 20
           (mk_world 50 (mk_limiter 5 60 [5%Q; 30%Q]))).
  unfold Qle; cbn; lia.
Defined.

Lemma acquire_uses_one_slot_witness :
  let w := mk_world 0 (init 2) in
  (acquire 0 w).1 = Return tt
  ∧ (get_remaining_capacity (acquire 0 w).2).1.1 = 1.
Proof.
  destruct (acquire_uses_one_slot 0 (mk_world 0 (init 2)))
    as (Hret & _ & Hleft).
  - unfold Qle; cbn; lia.
  - cbn. lia.
  - split; [exact Hret | exact Hleft].
Defined.

End RateLimiterMore.

(** ** Response cache: what a lookup touches, and the sweeps *)
Module CacheMore.
Import Cache MoreSpec Fixtures CacheFacts.

(** Runs the blocks of the cache on a given file. *)
Ltac cache_run :=
  unfold try_except, mbind, prog_bind, lift, unlink, write_json, modify,
    mret, prog_ret, json_load, getitem, time_minus, isinstance, issubclass;
  cbn [fst snd ttl_seconds cache_dir existsb issubclass_fuel exc_class_eqb
       base_class exn_class orb].

Section Hashed.
Variable sha256_hexdigest : string → string.

Abbreviation key := (_get_cache_key sha256_hexdigest).
Abbreviation path_of p m := (_get_cache_path (key p m)).
Abbreviation get := (get sha256_hexdigest).
Abbreviation set := (set sha256_hexdigest).

(** What [get] does is decided by the entry's file and the time-to-live
    alone: it returns a value and leaves the cache alone, returns [None]
    and deletes the file, or raises an exception that is none of the two
    it handles and leaves the cache alone. *)
Lemma get_cases p m now c f :
  cache_dir c !! path_of p m = Some f →
  ∃ verdict : outcome value * bool,
    (∀ c', ttl_seconds c' = ttl_seconds c →
           cache_dir c' !! path_of p m = Some f →
           get p m now c'
           = (verdict.1,
              if verdict.2
              then {| ttl_seconds := ttl_seconds c';
                      cache_dir := delete (path_of p m) (cache_dir c') |}
              else c'))
    ∧ (∀ e, verdict.1 = Raise e →
            isinstance e [JSONDecodeError; KeyError] = false
            ∧ verdict.2 = false)
    ∧ (verdict.2 = true → verdict.1 = Return VNone).
Proof.
  intros _.
  destruct f as [text | data | err].
  { exists (Return VNone, true). split; [|by split].
    intros c' _ Hf. unfold Cache.get. rewrite Hf. reflexivity. }
  2:{ destruct (isinstance err [JSONDecodeError; KeyError]) eqn:Herr.
      - exists (Return VNone, true). split; [|by split].
        intros c' _ Hf. unfold Cache.get. rewrite Hf.
        unfold try_except, mbind, prog_bind, lift, json_load.
        by rewrite Herr.
      - exists (Raise err, false). split; [|split; [|done]].
        + intros c' _ Hf. unfold Cache.get. rewrite Hf.
          unfold try_except, mbind, prog_bind, lift, json_load.
          by rewrite Herr.
        + by intros e [= <-]. }
  destruct data as [| b | q | n | s | l | d];
    try (eexists (Raise _, false); split;
         [ intros c' _ Hf; unfold Cache.get; rewrite Hf; cache_run;
           reflexivity
         | split; [by intros e [= <-] | done] ]).
  destruct (dict_lookup "timestamp" d) as [timestamp|] eqn:Hts.
  2:{ exists (Return VNone, true). split; [|by split].
      intros c' _ Hf. unfold Cache.get. rewrite Hf. cache_run.
      by rewrite Hts. }
  assert (∀ age : Q, ∃ verdict : outcome value * bool,
    (∀ c', ttl_seconds c' = ttl_seconds c →
       (if Qgtb age (inject_Z (ttl_seconds c'))
        then (Return VNone,
              {| ttl_seconds := ttl_seconds c';
                 cache_dir := delete (path_of p m) (cache_dir c') |})
        else match dict_lookup "response" d with
             | Some v => (Return v, c')
             | None =>
                 (Return VNone,
                  {| ttl_seconds := ttl_seconds c';
                     cache_dir := delete (path_of p m) (cache_dir c') |})
             end)
       = (verdict.1,
          if verdict.2
          then {| ttl_seconds := ttl_seconds c';
                  cache_dir := delete (path_of p m) (cache_dir c') |}
          else c'))
    ∧ (∀ e, verdict.1 = Raise e →
            isinstance e [JSONDecodeError; KeyError] = false
            ∧ verdict.2 = false)
    ∧ (verdict.2 = true → verdict.1 = Return VNone)) as Haged.
  { intros age.
    destruct (Qgtb age (inject_Z (ttl_seconds c))) eqn:Hage.
    - exists (Return VNone, true). split; [|by split].
      intros c' ->. by rewrite Hage.
    - destruct (dict_lookup "response" d) as [v|].
      + exists (Return v, false). split; [|by split].
        intros c' ->. by rewrite Hage.
      + exists (Return VNone, true). split; [|by split].
        intros c' ->. by rewrite Hage. }
  destruct timestamp as [| b | q | n | s | l | d'];
    try (eexists (Raise _, false); split;
         [ intros c' _ Hf; unfold Cache.get; rewrite Hf; cache_run;
           rewrite Hts; reflexivity
         | split; [by intros e [= <-] | done] ]).
  - destruct (Haged (now - (if b then 1 else 0))%Q) as (verdict & Hv & Hrest).
    exists verdict. split; [|exact Hrest].
    intros c' Httl Hf. rewrite <- (Hv c' Httl).
    unfold Cache.get. rewrite Hf. cache_run. rewrite Hts. cbn [fst snd].
    destruct (Qgtb _ _); [reflexivity|].
    by destruct (dict_lookup "response" d).
  - destruct (Haged (now - q)%Q) as (verdict & Hv & Hrest).
    exists verdict. split; [|exact Hrest].
    intros c' Httl Hf. rewrite <- (Hv c' Httl).
    unfold Cache.get. rewrite Hf. cache_run. rewrite Hts. cbn [fst snd].
    destruct (Qgtb _ _); [reflexivity|].
    by destruct (dict_lookup "response" d).
  - destruct (float_limit <=? Z.abs n) eqn:Hbig.
    + exists (Raise (mk_exn OverflowError "int too large to convert to float"),
              false).
      split; [|split; [by intros e [= <-] | done]].
      intros c' _ Hf. unfold Cache.get. rewrite Hf. cache_run. rewrite Hts.
      unfold float_of_int. rewrite Hbig. reflexivity.
    + destruct (Haged (now - inject_Z n)%Q) as (verdict & Hv & Hrest).
      exists verdict. split; [|exact Hrest].
      intros c' Httl Hf. rewrite <- (Hv c' Httl).
      unfold Cache.get. rewrite Hf. cache_run. rewrite Hts.
      unfold float_of_int. rewrite Hbig. unfold mbind, outcome_bind.
      destruct (Qgtb _ _); [reflexivity|].
      by destruct (dict_lookup "response" d).
Qed.

(** The two failures of a lookup that the handler of [get] does not
    cover beside [TypeError]: a file that is not text, and a timestamp
    that is an integer without a float.  Both come out of [get], and the
    file stays. *)
Lemma get_lets_out_unhandled p m now c :
  (∀ e, isinstance e [JSONDecodeError; KeyError] = false →
        cache_dir c !! path_of p m = Some (Unloadable e) →
        get p m now c = (Raise e, c))
  ∧ (∀ n d, float_limit ≤ Z.abs n →
            dict_lookup "timestamp" d = Some (VInt n) →
            cache_dir c !! path_of p m = Some (JsonDoc (VDict d)) →
            get p m now c
            = (Raise (mk_exn OverflowError "int too large to convert to float"),
               c)).
Proof.
  split.
  - intros e He Hf. unfold Cache.get. rewrite Hf.
    unfold try_except, mbind, prog_bind, lift, json_load. by rewrite He.
  - intros n d Hn Hts Hf. unfold Cache.get. rewrite Hf. cache_run.
    rewrite Hts. unfold float_of_int.
    by rewrite (proj2 (Z.leb_le _ _) Hn).
Qed.

(** X8.  What a lookup can touch.  [get] never changes the time-to-live,
    never touches the file of another key, and never writes: the entry's
    own file is afterwards as before or gone.  When it raises, the
    exception is none of the two classes it handles and the cache is
    exactly as it was: a failure is either healed by deleting the entry
    or let out with the entry kept, never both.  Without a file for the
    key it returns [None] and changes nothing. *)
Theorem get_frame (p m : string) (now : Q) (c : ResponseCache) :
  let r := get p m now c in
  ttl_seconds r.2 = ttl_seconds c
  ∧ (∀ other, other ≠ path_of p m →
       cache_dir r.2 !! other = cache_dir c !! other)
  ∧ (cache_dir r.2 !! path_of p m = cache_dir c !! path_of p m
     ∨ cache_dir r.2 !! path_of p m = None)
  ∧ (∀ e, r.1 = Raise e →
       isinstance e [JSONDecodeError; KeyError] = false ∧ r.2 = c)
  ∧ (cache_dir c !! path_of p m = None → r = (Return VNone, c)).
Proof.
  intros r. subst r.
  destruct (cache_dir c !! path_of p m) as [f|] eqn:Hf.
  - destruct (get_cases p m now c f Hf) as ([o deleted] & Hget & Hraise & _).
    rewrite (Hget c eq_refl Hf). cbn [fst snd] in *.
    destruct deleted; cbn [ttl_seconds cache_dir].
    + split; [done|]. split; [|split; [|split]].
      * intros other Hother. by rewrite lookup_delete_ne.
      * right. apply lookup_delete_eq.
      * intros e He. by destruct (Hraise e He).
      * done.
    + split; [done|]. split; [done|]. split; [by left|]. split; [|done].
      intros e He. by destruct (Hraise e He).
  - unfold Cache.get. rewrite Hf. cbn [fst snd].
    split; [done|]. split; [done|]. split; [by left|]. by split.
Qed.

(** X9.  Entries under different file names do not disturb each other:
    when the keys of two (prompt, model) pairs differ, a [set] under one
    pair changes neither what [get] returns under the other nor the
    other's file. *)
Theorem set_leaves_other_keys (p m p' m' r' : string) (t now : Q)
    (c : ResponseCache) :
  path_of p m ≠ path_of p' m' →
  let c' := (set p' m' r' t c).2 in
  (get p m now c').1 = (get p m now c).1
  ∧ cache_dir c' !! path_of p m = cache_dir c !! path_of p m.
Proof.
  intros Hne c'.
  assert (cache_dir c' !! path_of p m = cache_dir c !! path_of p m) as Hsame.
  { subst c'. rewrite set_files. by rewrite lookup_insert_ne. }
  split; [|exact Hsame].
  destruct (cache_dir c !! path_of p m) as [f|] eqn:Hf.
  - destruct (get_cases p m now c f Hf) as (verdict & Hget & _).
    rewrite (Hget c eq_refl Hf), (Hget c' eq_refl Hsame). reflexivity.
  - unfold Cache.get. by rewrite Hsame, Hf.
Qed.

End Hashed.

(** *** [clear] *)

Lemma foldl_delete_lookup (l : list (string * file)) :
  ∀ (d : gmap string file) (k : string),
    foldl (λ d kv, delete kv.1 d) d l !! k
    = if decide (k ∈ l.*1) then None else d !! k.
Proof.
  induction l as [|[k' f] l IH]; intros d k.
  - cbn. case_decide as Hin; [by apply elem_of_nil in Hin | done].
  - cbn [foldl fmap list_fmap fst]. rewrite IH.
    destruct (decide (k ∈ l.*1)) as [Hin|Hnin].
    + rewrite decide_True; [done | by apply elem_of_cons; right].
    + destruct (decide (k = k')) as [->|Hne].
      * rewrite decide_True by (apply elem_of_cons; by left).
        apply lookup_delete_eq.
      * rewrite decide_False.
        -- by apply lookup_delete_ne.
        -- intros [?|?]%elem_of_cons; done.
Qed.

Lemma clear_loop_spec (l : list (string * file)) :
  ∀ count c,
    clear_loop l count c
    = (Return (count + length l)%nat,
       {| ttl_seconds := ttl_seconds c;
          cache_dir := foldl (λ d kv, delete kv.1 d) (cache_dir c) l |}).
Proof.
  induction l as [|[k f] l IH]; intros count c.
  - cbn. rewrite Nat.add_0_r. by destruct c.
  - cbn [clear_loop]. unfold mbind, prog_bind, unlink, modify.
    rewrite IH. cbn [ttl_seconds cache_dir foldl fst length].
    f_equal. f_equal. lia.
Qed.

(** X10.  [clear] returns the number of entries the cache held and
    leaves it empty, with its time-to-live unchanged; every lookup that
    follows misses. *)
Theorem clear_empties (sha256_hexdigest : string → string) (p m : string)
    (now : Q) (c : ResponseCache) :
  clear c = (Return (size (cache_dir c)),
             {| ttl_seconds := ttl_seconds c; cache_dir := ∅ |})
  ∧ (Cache.get sha256_hexdigest p m now (clear c).2).1 = Return VNone.
Proof.
  assert (clear c = (Return (size (cache_dir c)),
                     {| ttl_seconds := ttl_seconds c; cache_dir := ∅ |}))
    as Hclear.
  { unfold clear. rewrite clear_loop_spec, length_map_to_list. cbn [Nat.add].
    do 2 f_equal. apply map_eq. intros k.
    rewrite foldl_delete_lookup, lookup_empty. case_decide as Hin; [done|].
    destruct (cache_dir c !! k) as [f|] eqn:Hk; [|done].
    exfalso. apply Hin. apply list_elem_of_fmap. exists (k, f).
    split; [done|]. by apply elem_of_map_to_list. }
  split; [exact Hclear|]. rewrite Hclear. cbn [snd].
  unfold Cache.get. cbn [cache_dir]. by rewrite lookup_empty.
Qed.

(** *** [clear_expired] *)

(** One turn of the loop of [clear_expired] on a file it can judge: the
    file is kept and the count stays, or the file is deleted and
    counted. *)
Lemma sweep_step (now : Q) (cache_file : string) (f : file) (count : nat)
    (rest : list (string * file)) (c : ResponseCache) :
  sweepable f = true →
  clear_expired_loop now ((cache_file, f) :: rest) count c
  = if kept (ttl_seconds c) now f
    then clear_expired_loop now rest count c
    else clear_expired_loop now rest (S count)
           {| ttl_seconds := ttl_seconds c;
              cache_dir := delete cache_file (cache_dir c) |}.
Proof.
  intros Hf. cbn [clear_expired_loop]. unfold kept.
  destruct f as [text | [| b | q | n | s | l | d] | err]; try done.
  - cbn [sweepable] in Hf.
    destruct (dict_lookup "timestamp" d)
      as [[| b | q | n | s | l | d']|] eqn:Hts;
      try done; cache_run; rewrite Hts; cbn [fst snd]; unfold Qgtb;
      try (destruct (Qle_bool _ _); reflexivity).
    + apply Z.ltb_lt in Hf. unfold float_of_int.
      rewrite (proj2 (Z.leb_gt _ _) Hf). unfold mbind, outcome_bind.
      destruct (Qle_bool _ _); reflexivity.
    + reflexivity.
  - cbn [sweepable] in Hf.
    unfold try_except, mbind, prog_bind, lift, json_load.
    by rewrite Hf.
Qed.

Lemma clear_expired_loop_spec (now : Q) (l : list (string * file)) :
  ∀ count c,
    Forall (λ kv, sweepable kv.2 = true) l →
    clear_expired_loop now l count c
    = (Return
         (count
          + length (filter (λ kv, kept (ttl_seconds c) now kv.2 = false) l))%nat,
       {| ttl_seconds := ttl_seconds c;
          cache_dir :=
            foldl (λ d kv,
                     if kept (ttl_seconds c) now kv.2 then d
                     else delete kv.1 d)
              (cache_dir c) l |}).
Proof.
  induction l as [|[k f] l IH]; intros count c Hsweep.
  - cbn. rewrite Nat.add_0_r. by destruct c.
  - apply Forall_cons in Hsweep as [Hf Hsweep]. cbn [snd] in Hf.
    rewrite sweep_step by done. cbn [foldl fst snd].
    destruct (kept (ttl_seconds c) now f) eqn:Hkept.
    + rewrite filter_cons_False by (cbn; congruence). by apply IH.
    + rewrite filter_cons_True by done. rewrite IH by done.
      cbn [ttl_seconds cache_dir length]. do 2 f_equal. lia.
Qed.

Lemma sweep_other (ttl : Z) (now : Q) (l : list (string * file)) :
  ∀ (d : gmap string file) (k : string),
    k ∉ l.*1 →
    foldl (λ d kv, if kept ttl now kv.2 then d else delete kv.1 d) d l !! k
    = d !! k.
Proof.
  induction l as [|[k' f] l IH]; intros d k Hk; [done|].
  cbn [fmap list_fmap fst] in Hk. apply not_elem_of_cons in Hk as [Hne Hk].
  cbn [foldl fst snd]. rewrite IH by done.
  destruct (kept ttl now f); [done|]. by rewrite lookup_delete_ne.
Qed.

Lemma sweep_lookup (ttl : Z) (now : Q) (l : list (string * file)) :
  NoDup l.*1 →
  ∀ (d : gmap string file) (k : string) (f : file),
    (k, f) ∈ l →
    foldl (λ d kv, if kept ttl now kv.2 then d else delete kv.1 d) d l !! k
    = if kept ttl now f then d !! k else None.
Proof.
  induction l as [|[k' f'] l IH]; intros Hnd d k f Hin.
  - by apply elem_of_nil in Hin.
  - cbn [fmap list_fmap fst] in Hnd. apply NoDup_cons in Hnd as [Hk' Hnd].
    cbn [foldl fst snd]. apply elem_of_cons in Hin as [[= <- <-]|Hin].
    + rewrite sweep_other by done.
      destruct (kept ttl now f); [done | apply lookup_delete_eq].
    + assert (k' ≠ k) as Hne.
      { intros ->. apply Hk'. apply list_elem_of_fmap. by exists (k, f). }
      rewrite (IH Hnd _ k f Hin).
      destruct (kept ttl now f); [|done].
      destruct (kept ttl now f'); [done|]. by rewrite lookup_delete_ne.
Qed.

(** X11.  On a cache whose files are all ones the sweep can judge
    (text that is not JSON, or a JSON object whose timestamp, if present,
    is a float, a boolean or an integer within the range of a float),
    [clear_expired] returns rather than raises; it returns the number of
    entries that were expired or unparsable, deletes exactly those, and
    keeps every other entry as it was; the time-to-live is unchanged.
    (A file outside these, one that is not text or whose timestamp is a
    string, a list or an integer beyond the floats, makes the sweep
    raise: see [sweep_stops_at_unjudged].) *)
Theorem clear_expired_sweeps (now : Q) (c : ResponseCache) :
  (∀ path f, cache_dir c !! path = Some f → sweepable f = true) →
  let ttl := ttl_seconds c in
  ∃ c',
    clear_expired now c
    = (Return (length (filter (λ kv, kept ttl now kv.2 = false)
                         (map_to_list (cache_dir c)))), c')
    ∧ ttl_seconds c' = ttl
    ∧ ∀ path,
        cache_dir c' !! path
        = match cache_dir c !! path with
          | Some f => if kept ttl now f then Some f else None
          | None => None
          end.
Proof.
  intros Hsweep ttl. unfold clear_expired.
  rewrite clear_expired_loop_spec.
  2:{ apply Forall_forall. intros [k f] Hin%elem_of_map_to_list.
      by apply (Hsweep k f). }
  eexists. split; [reflexivity|]. split; [reflexivity|].
  intros path. cbn [cache_dir].
  destruct (cache_dir c !! path) as [f|] eqn:Hpath.
  - rewrite (sweep_lookup _ _ _ (NoDup_fst_map_to_list _) _ path f).
    + by rewrite Hpath.
    + by apply elem_of_map_to_list.
  - rewrite sweep_other; [done|].
    intros ([k f] & Hk & Hin%elem_of_map_to_list)%list_elem_of_fmap.
    cbn [fst] in Hk. subst k. congruence.
Qed.

(** Outside the files the sweep can judge it does not return: a single
    file that is not text, or whose timestamp is an integer without a
    float, makes [clear_expired] raise, and the file stays. *)
Lemma sweep_stops_at_unjudged (now : Q) (ttl : Z) (path : string) :
  (∀ e, isinstance e [JSONDecodeError; KeyError] = false →
        clear_expired now (mk_cache ttl {[ path := Unloadable e ]})
        = (Raise e, mk_cache ttl {[ path := Unloadable e ]}))
  ∧ (∀ n d, float_limit ≤ Z.abs n →
            dict_lookup "timestamp" d = Some (VInt n) →
            clear_expired now (mk_cache ttl {[ path := JsonDoc (VDict d) ]})
            = (Raise (mk_exn OverflowError "int too large to convert to float"),
               mk_cache ttl {[ path := JsonDoc (VDict d) ]})).
Proof.
  split.
  - intros e He. unfold clear_expired. cbn [cache_dir].
    rewrite map_to_list_singleton. cbn [clear_expired_loop].
    unfold try_except, mbind, prog_bind, lift, json_load. by rewrite He.
  - intros n d Hn Hts. unfold clear_expired. cbn [cache_dir].
    rewrite map_to_list_singleton. cbn [clear_expired_loop]. cache_run.
    rewrite Hts. unfold float_of_int.
    by rewrite (proj2 (Z.leb_le _ _) Hn).
Qed.

Lemma get_frame_witness :
  let c := mk_cache 3600
             {[ _get_cache_path (_get_cache_key plain_digest "What is AI?"
                                   "claude")
                := Unloadable (mk_exn UnicodeDecodeError
                                 "'utf-8' codec can't decode byte 0xff") ]} in
  isinstance (mk_exn UnicodeDecodeError "'utf-8' codec can't decode byte 0xff")
    [JSONDecodeError; KeyError] = false
  ∧ (Cache.get plain_digest "What is AI?" "claude" 100 c).2 = c.
Proof.
  intros c.
  destruct (get_frame plain_digest "What is AI?" "claude" 100 c)
    as (_ & _ & _ & Herr & _).
  apply Herr. vm_compute. reflexivity.
Defined.

Lemma set_leaves_other_keys_witness :
  let c := (Cache.set plain_digest "What is AI?" "claude" "Claude response"
              100 (mk_cache 3600 ∅)).2 in
  let c' := (Cache.set plain_digest "What is AI?" "gpt" "GPT response"
               100 c).2 in
  (Cache.get plain_digest "What is AI?" "claude" 100 c').1
  = Return (VStr "Claude response").
Proof.
  cbv zeta.
  rewrite (proj1 (set_leaves_other_keys plain_digest "What is AI?" "claude"
                    "What is AI?" "gpt" "GPT response" 100 100 _ ltac:(done))).
  reflexivity.
Defined.

Lemma clear_expired_sweeps_witness :
  let c := mk_cache 10
             {[ "a.json" := JsonDoc (VDict [("timestamp", VNum 95);
                                            ("response", VStr "fresh")]);
                "b.json" := JsonDoc (VDict [("timestamp", VInt 5)]);
                "c.json" := NotJson "{" ]} in
  (clear_expired 100 c).1 = Return 2%nat
  ∧ cache_dir (clear_expired 100 c).2 !! "b.json" = None.
Proof.
  cbv zeta.
  destruct (clear_expired_sweeps 100
    (mk_cache 10
       {[ "a.json" := JsonDoc (VDict [("timestamp", VNum 95);
                                      ("response", VStr "fresh")]);
          "b.json" := JsonDoc (VDict [("timestamp", VInt 5)]);
          "c.json" := NotJson "{" ]})) as (c' & Hrun & _ & Hdir).
  - intros path f Hf. cbn [cache_dir] in Hf.
    apply lookup_insert_Some in Hf as [[_ <-]|[_ Hf]]; [done|].
    apply lookup_insert_Some in Hf as [[_ <-]|[_ Hf]]; [done|].
    by apply lookup_singleton_Some in Hf as [_ <-].
  - rewrite Hrun. cbn [fst snd]. split.
    + vm_compute. reflexivity.
    + rewrite Hdir. vm_compute. reflexivity.
Defined.

End CacheMore.

(** ** Token counter *)
Module TokenCounterFacts.
Import TokenCounter MoreSpec QuerySpec QueryEngineFacts.

Lemma length_chars (s : string) :
  length (list_ascii_of_string s) = String.length s.
Proof. induction s as [|a s IH]; cbn; [done | by rewrite IH]. Qed.

Lemma string_of_app (a b : list ascii) :
  string_of_list_ascii (a ++ b)
  = string_of_list_ascii a +:+ string_of_list_ascii b.
Proof.
  induction a as [|x a IH]; [done|]. cbn [app string_of_list_ascii].
  by rewrite append_cons, IH.
Qed.

Lemma len_nonneg (s : string) : 0 ≤ len s.
Proof. unfold len. lia. Qed.

Lemma len_empty (s : string) : len s = 0 → s = "".
Proof. unfold len. by destruct s. Qed.

(** The characters of a slice that starts inside the text. *)
Lemma chars_slice (text : string) (lo hi : Z) :
  0 ≤ lo ≤ len text → lo ≤ hi →
  list_ascii_of_string (slice text lo hi)
  = take (Z.to_nat (Z.min hi (len text) - lo))
      (drop (Z.to_nat lo) (list_ascii_of_string text)).
Proof.
  intros Hlo Hhi. unfold slice, slice_index.
  rewrite list_ascii_of_string_of_list_ascii.
  replace (lo <? 0) with false by (symmetry; apply Z.ltb_ge; lia).
  replace (hi <? 0) with false by (symmetry; apply Z.ltb_ge; lia).
  by replace (Z.min lo (len text)) with lo by lia.
Qed.

(** What a slice from the start keeps, for any [hi]: the first
    [slice_index (len text) hi] characters. *)
Lemma slice_from_start (text : string) (hi : Z) :
  slice text 0 hi
  = string_of_list_ascii
      (take (Z.to_nat (slice_index (len text) hi)) (list_ascii_of_string text)).
Proof.
  unfold slice. cbn [slice_index Z.ltb Z.compare].
  replace (Z.min 0 (len text)) with 0 by (pose proof (len_nonneg text); lia).
  rewrite Z.sub_0_r. reflexivity.
Qed.

Lemma slice_index_bounds (n i : Z) : 0 ≤ n → 0 ≤ slice_index n i ≤ n.
Proof. unfold slice_index. destruct (i <? 0) eqn:Hi; lia. Qed.

Lemma slice_from_start_spec (text : string) (hi : Z) :
  len (slice text 0 hi) = slice_index (len text) hi
  ∧ ∃ rest, text = slice text 0 hi +:+ rest.
Proof.
  rewrite slice_from_start.
  pose proof (slice_index_bounds (len text) hi (len_nonneg text)) as Hb.
  split.
  - unfold len at 1.
    rewrite <- length_chars, list_ascii_of_string_of_list_ascii, length_take.
    rewrite length_chars. unfold len in *. lia.
  - exists (string_of_list_ascii
              (drop (Z.to_nat (slice_index (len text) hi))
                 (list_ascii_of_string text))).
    by rewrite <- string_of_app, take_drop, string_of_list_ascii_of_string.
Qed.

(** X12.  [truncate] keeps a prefix of the text, and for a budget that
    is not negative the prefix fits the budget: it has at most
    [4 * max_tokens] characters, [count] gives at most [max_tokens] for
    it, and a text already within the budget comes back whole. *)
Theorem truncate_fits (c : counter) (text : string) (max_tokens : Z) :
  0 ≤ max_tokens →
  (∃ rest, text = truncate c text max_tokens +:+ rest)
  ∧ len (truncate c text max_tokens) ≤ 4 * max_tokens
  ∧ count c (truncate c text max_tokens) ≤ max_tokens
  ∧ (len text ≤ 4 * max_tokens → truncate c text max_tokens = text).
Proof.
  intros Hmax.
  assert ((∃ rest, text = truncate c text max_tokens +:+ rest)
          ∧ len (truncate c text max_tokens) ≤ 4 * max_tokens
          ∧ (len text ≤ 4 * max_tokens → truncate c text max_tokens = text))
    as (Hprefix & Hlen & Hwhole).
  { unfold truncate, chars_per_token. destruct text as [|a text'] eqn:Htext.
    { split; [by exists "" |]. split; [change (len "") with 0; lia | done]. }
    rewrite <- Htext. clear Htext a text'.
    destruct (len text <=? max_tokens * 4) eqn:Hfit.
    - apply Z.leb_le in Hfit. split; [|split; [lia | done]].
      exists "". by rewrite append_empty_r.
    - apply Z.leb_gt in Hfit.
      destruct (slice_from_start_spec text (max_tokens * 4)) as [Hl Hp].
      split; [exact Hp|]. split; [|lia].
      rewrite Hl. unfold slice_index.
      replace (max_tokens * 4 <? 0) with false
        by (symmetry; apply Z.ltb_ge; lia).
      lia. }
  split; [exact Hprefix|]. split; [exact Hlen|]. split; [|exact Hwhole].
  unfold count, chars_per_token.
  destruct (truncate c text max_tokens); [lia|].
  apply Z.div_le_upper_bound; lia.
Qed.

(** X13.  With a negative budget [truncate] does not return the empty
    text: the negative bound is taken as a slice index counted from the
    end, so the text loses its last [4 * |max_tokens|] characters and
    keeps the rest. *)
Theorem truncate_negative_budget (c : counter) (text : string)
    (max_tokens : Z) :
  max_tokens < 0 →
  len (truncate c text max_tokens) = Z.max 0 (len text + 4 * max_tokens)
  ∧ ∃ rest, text = truncate c text max_tokens +:+ rest.
Proof.
  intros Hneg. unfold truncate, chars_per_token.
  destruct text as [|a text'] eqn:Htext.
  { split; [change (len "") with 0; lia | by exists ""]. }
  rewrite <- Htext. clear Htext a text'.
  pose proof (len_nonneg text).
  replace (len text <=? max_tokens * 4) with false
    by (symmetry; apply Z.leb_gt; lia).
  destruct (slice_from_start_spec text (max_tokens * 4)) as [Hl Hp].
  split; [|exact Hp]. rewrite Hl. unfold slice_index.
  replace (max_tokens * 4 <? 0) with true by (symmetry; apply Z.ltb_lt; lia).
  lia.
Qed.

Lemma truncate_fits_witness :
  truncate (mk_counter "gpt-3.5-turbo") "This text is too long." 3
  = "This text is" ∧ count (mk_counter "gpt-3.5-turbo") "This text is" ≤ 3.
Proof.
  split; [reflexivity|].
  apply (truncate_fits (mk_counter "gpt-3.5-turbo") "This text is too long." 3).
  lia.
Defined.

Lemma truncate_negative_budget_witness :
  len (truncate (mk_counter "gpt-3.5-turbo") "abcdefghij" (-1)) = 6.
Proof.
  rewrite (proj1 (truncate_negative_budget (mk_counter "gpt-3.5-turbo")
                    "abcdefghij" (-1) ltac:(lia))).
  reflexivity.
Defined.

(** *** [split_by_tokens] *)

Lemma range_up_done (fuel : nat) (start stop step : Z) :
  stop ≤ start → range_up fuel start stop step = [].
Proof.
  intros H. destruct fuel; [done|]. cbn [range_up].
  by replace (start <? stop) with false by (symmetry; apply Z.ltb_ge; lia).
Qed.

Lemma concat_all_chars (chunks : list string) :
  string_of_list_ascii (concat (list_ascii_of_string <$> chunks))
  = concat_all chunks.
Proof.
  induction chunks as [|ch chunks IH]; [done|].
  cbn [fmap list_fmap concat concat_all foldr].
  rewrite string_of_app, string_of_list_ascii_of_string. by f_equal.
Qed.

(** The chunks cut from position [i] on, [m] characters at a time: they
    make up the rest of the text, none is empty or longer than [m], and
    there are as many as it takes. *)
Lemma chunks_from (text : string) (m : Z) :
  0 < m →
  ∀ (fuel i : nat),
    (i ≤ String.length text)%nat →
    (String.length text - i ≤ fuel)%nat →
    let chunks := (λ j, slice text j (j + m))
                    <$> range_up fuel (Z.of_nat i) (len text) m in
    concat (list_ascii_of_string <$> chunks)
      = drop i (list_ascii_of_string text)
    ∧ Forall (λ ch, 0 < len ch ≤ m) chunks
    ∧ len text - Z.of_nat i ≤ Z.of_nat (length chunks) * m
      < len text - Z.of_nat i + m.
Proof.
  intros Hm. induction fuel as [|fuel IH]; intros i Hi Hfuel chunks;
    subst chunks.
  - assert (i = String.length text) as -> by lia.
    cbn [range_up fmap list_fmap concat length].
    rewrite drop_ge by (rewrite length_chars; lia).
    unfold len. split; [done|]. split; [constructor | lia].
  - cbn [range_up]. destruct (Z.of_nat i <? len text) eqn:Hlt.
    + apply Z.ltb_lt in Hlt. unfold len in Hlt.
      cbn [fmap list_fmap concat length].
      assert (list_ascii_of_string (slice text (Z.of_nat i) (Z.of_nat i + m))
              = take (Z.to_nat (Z.min (Z.of_nat i + m) (len text) - Z.of_nat i))
                  (drop i (list_ascii_of_string text))) as Hchunk.
      { rewrite chars_slice by (unfold len; lia). by rewrite Nat2Z.id. }
      assert (len (slice text (Z.of_nat i) (Z.of_nat i + m))
              = Z.min (Z.of_nat i + m) (len text) - Z.of_nat i) as Hlen.
      { unfold len at 1. rewrite <- length_chars, Hchunk, length_take,
          length_drop, length_chars. unfold len. lia. }
      destruct (decide (Z.of_nat i + m ≤ len text)) as [Hin|Hout].
      * destruct (IH (i + Z.to_nat m)%nat) as (Hcat & Hall & Hcount).
        { unfold len in Hin. lia. }
        { lia. }
        replace (Z.of_nat (i + Z.to_nat m)) with (Z.of_nat i + m) in * by lia.
        split; [|split].
        -- rewrite Hcat, Hchunk.
           replace (Z.to_nat (Z.min (Z.of_nat i + m) (len text) - Z.of_nat i))
             with (Z.to_nat m) by lia.
           rewrite <- drop_drop. apply take_drop.
        -- constructor; [lia | exact Hall].
        -- lia.
      * rewrite range_up_done by lia.
        cbn [fmap list_fmap concat length]. rewrite app_nil_r.
        split; [|split].
        -- rewrite Hchunk. apply take_ge.
           rewrite length_drop, length_chars. unfold len in *. lia.
        -- constructor; [unfold len in *; lia | constructor].
        -- unfold len in *. lia.
    + apply Z.ltb_ge in Hlt. unfold len in Hlt.
      assert (i = String.length text) as -> by lia.
      cbn [fmap list_fmap concat length].
      rewrite drop_ge by (rewrite length_chars; lia).
      unfold len. split; [done|]. split; [constructor | lia].
Qed.

(** X14.  For a chunk size of at least one token, [split_by_tokens]
    returns chunks that, put together in order, give back the text; no
    chunk is empty or longer than [4 * chunk_size] characters, and the
    number of chunks is the least that can hold the text. *)
Theorem split_by_tokens_round_trip (c : counter) (text : string)
    (chunk_size : Z) :
  0 < chunk_size →
  ∃ chunks,
    split_by_tokens c text chunk_size = Return chunks
    ∧ concat_all chunks = text
    ∧ Forall (λ ch, 0 < len ch ≤ 4 * chunk_size) chunks
    ∧ len text ≤ Z.of_nat (length chunks) * (4 * chunk_size)
      < len text + 4 * chunk_size.
Proof.
  intros Hsize. unfold split_by_tokens, chars_per_token.
  destruct text as [|a text'] eqn:Htext.
  { exists []. change (len "") with 0.
    split; [reflexivity|]. split; [reflexivity|].
    split; [by apply Forall_nil | cbn [length]; lia]. }
  rewrite <- Htext. clear Htext a text'.
  unfold range3.
  replace (chunk_size * 4 =? 0) with false by (symmetry; apply Z.eqb_neq; lia).
  replace (0 <? chunk_size * 4) with true by (symmetry; apply Z.ltb_lt; lia).
  eexists. split; [reflexivity|].
  destruct (chunks_from text (chunk_size * 4) ltac:(lia)
              (Z.to_nat (len text - 0)) 0%nat) as (Hcat & Hall & Hcount).
  { lia. }
  { unfold len. lia. }
  change (Z.of_nat 0) with 0 in *. split; [|split].
  - rewrite <- concat_all_chars, Hcat. cbn [drop].
    apply string_of_list_ascii_of_string.
  - eapply Forall_impl; [exact Hall|]. intros ch Hch. cbn in Hch. lia.
  - lia.
Qed.

(** X15.  The degenerate chunk sizes.  An empty text gives no chunks,
    whatever the chunk size.  On a text that is not empty, chunk size 0
    makes [split_by_tokens] raise [ValueError] (the step of its [range]
    is zero), and a negative chunk size silently gives no chunks at all:
    the text is dropped. *)
Theorem split_by_tokens_degenerate (c : counter) (text : string)
    (chunk_size : Z) :
  split_by_tokens c "" chunk_size = Return []
  ∧ (text ≠ "" →
     (chunk_size = 0 →
      ∃ e, split_by_tokens c text chunk_size = Raise e
           ∧ exn_class e = ValueError)
     ∧ (chunk_size < 0 → split_by_tokens c text chunk_size = Return [])).
Proof.
  split; [reflexivity|]. intros Htext.
  unfold split_by_tokens, chars_per_token, range3.
  destruct text as [|a text']; [done|]. split.
  - intros ->. eexists. split; reflexivity.
  - intros Hneg.
    replace (chunk_size * 4 =? 0) with false
      by (symmetry; apply Z.eqb_neq; lia).
    replace (0 <? chunk_size * 4) with false
      by (symmetry; apply Z.ltb_ge; lia).
    pose proof (len_nonneg (String a text')).
    by replace (Z.to_nat (0 - len (String a text'))) with 0%nat by lia.
Qed.

Lemma split_by_tokens_round_trip_witness :
  split_by_tokens (mk_counter "gpt-3.5-turbo") "abcdefghij" 1
  = Return ["abcd"; "efgh"; "ij"]
  ∧ ∃ chunks,
      split_by_tokens (mk_counter "gpt-3.5-turbo") "abcdefghij" 1
        = Return chunks
      ∧ concat_all chunks = "abcdefghij".
Proof.
  split; [reflexivity|].
  destruct (split_by_tokens_round_trip (mk_counter "gpt-3.5-turbo")
              "abcdefghij" 1 ltac:(lia)) as (chunks & Hrun & Hcat & _).
  by exists chunks.
Defined.

Lemma split_by_tokens_degenerate_witness :
  ∃ e, split_by_tokens (mk_counter "gpt-3.5-turbo") "abcdefghij" 0 = Raise e
       ∧ exn_class e = ValueError.
Proof.
  destruct (split_by_tokens_degenerate (mk_counter "gpt-3.5-turbo")
              "abcdefghij" 0) as [_ Hrest].
  by apply Hrest.
Defined.

End TokenCounterFacts.

(** ** Message ingestion: validation on any record, and the single path *)
Module MessageProcessorMore.
Import VectorStore MessageProcessor IngestionSpec MoreSpec Fixtures
  MessageProcessorFacts.

(** X16.  A record that lacks one of the five required fields is
    rejected, not raised on, whatever else it holds: [validate_message]
    returns [False] without looking at the content, so even a record whose
    other fields have the wrong types is skipped quietly. *)
Theorem validate_message_missing_field (m : message) (field : string) :
  field ∈ required_fields →
  dict_lookup field m = None →
  validate_message m = Return false.
Proof.
  intros Hfield Hmissing. unfold validate_message.
  destruct (forallb (λ field, dict_contains field m) required_fields)
    eqn:Hall; [|done].
  rewrite forallb_forall in Hall.
  specialize (Hall field (proj1 (list_elem_of_In _ _) Hfield)).
  unfold dict_contains in Hall. by rewrite Hmissing in Hall.
Qed.

Lemma lstrip_empty (s : string) :
  lstrip s = "" ↔ forallb is_space (chars s) = true.
Proof.
  unfold chars. induction s as [|a s IH]; [done|].
  cbn [lstrip list_ascii_of_string forallb].
  destruct (is_space a); cbn [andb]; [exact IH | done].
Qed.

Lemma lstrip_head (s : string) (a : ascii) (t : string) :
  lstrip s = String a t → is_space a = false.
Proof.
  induction s as [|b s IH]; [done|]. cbn [lstrip].
  destruct (is_space b) eqn:Hb; [exact IH|]. by intros [= <- _].
Qed.

Lemma lstrip_kept_blank (s : string) :
  forallb is_space (chars (lstrip s)) = true → lstrip s = "".
Proof.
  destruct (lstrip s) as [|a t] eqn:Hs; [done|].
  apply lstrip_head in Hs. unfold chars. cbn [list_ascii_of_string forallb].
  by rewrite Hs.
Qed.

Lemma forallb_rev {A} (f : A → bool) (l : list A) :
  forallb f (rev l) = true ↔ forallb f l = true.
Proof.
  rewrite !forallb_forall. split; intros H x Hx; apply H.
  - by apply in_rev in Hx.
  - by apply in_rev.
Qed.

Lemma str_reverse_empty (s : string) : str_reverse s = "" ↔ s = "".
Proof.
  unfold str_reverse. split; [|by intros ->].
  intros H. apply (f_equal list_ascii_of_string) in H.
  rewrite list_ascii_of_string_of_list_ascii in H. cbn in H.
  destruct s as [|a s]; [done|]. cbn [list_ascii_of_string rev] in H.
  by destruct (rev (list_ascii_of_string s)).
Qed.

(** Trimming leaves nothing exactly when the text is all whitespace. *)
Lemma strip_empty (s : string) :
  strip s = "" ↔ forallb is_space (chars s) = true.
Proof.
  unfold strip. rewrite str_reverse_empty, lstrip_empty.
  unfold chars, str_reverse at 1.
  rewrite list_ascii_of_string_of_list_ascii, forallb_rev.
  split.
  - intros H%lstrip_kept_blank. by apply lstrip_empty.
  - intros H%lstrip_empty. by rewrite H.
Qed.

(** X17.  On a record with all five fields and a string for content,
    [validate_message] returns, and accepts the record exactly when the
    content has a character that is not whitespace; the other fields are
    not examined (an empty author or url passes). *)
Theorem validate_message_blank_content (m : message) (s : string) :
  (∀ field, field ∈ required_fields → dict_lookup field m ≠ None) →
  dict_lookup "content" m = Some (VStr s) →
  validate_message m = Return (negb (forallb is_space (chars s))).
Proof.
  intros Hall Hcontent. unfold validate_message.
  assert (forallb (λ field, dict_contains field m) required_fields = true)
    as ->.
  { apply forallb_forall. intros field Hfield%list_elem_of_In.
    specialize (Hall field Hfield). unfold dict_contains.
    by destruct (dict_lookup field m). }
  cbn [getitem]. rewrite Hcontent. cbn [mbind outcome_bind value_strip].
  destruct (forallb is_space (chars s)) eqn:Hblank.
  - apply strip_empty in Hblank. by rewrite Hblank.
  - destruct (String.eqb (strip s) "") eqn:Heq; [|done].
    apply String.eqb_eq, strip_empty in Heq. congruence.
Qed.

Section Processor.
Variable encode : string → embedding.

(** X18.  The single-record path.  On a record of the input format
    [process_message] returns; an invalid record leaves the store as it
    is, and a valid one is handed to [add_message] with its identifier,
    its content and the normalised metadata.  The store it leaves is the
    one [process_messages_batch] leaves for the batch of that one
    record. *)
Theorem process_message_single (m : message) (c : collection) :
  conforms m = true →
  process_message encode m c
  = (Return tt,
     if valid_record m
     then (add_message encode (str_field "message_id" m)
             (str_field "content" m) (normalize_metadata m) c).2
     else c)
  ∧ (process_messages_batch encode [m] c).2 = (process_message encode m c).2.
Proof.
  intros Hconf.
  assert (process_message encode m c
          = (Return tt,
             if valid_record m
             then (add_message encode (str_field "message_id" m)
                     (str_field "content" m) (normalize_metadata m) c).2
             else c)) as Hsingle.
  { unfold process_message, mbind, prog_bind, lift.
    rewrite (validate_message_conforming m Hconf).
    destruct (valid_record m) eqn:Hvalid; cbn [negb]; [|done].
    rewrite (build_metadata_conforming m Hconf Hvalid).
    pose proof Hconf as [Hfields _]%andb_true_iff.
    pose proof Hvalid as [Hreq _]%andb_true_iff.
    cbn [forallb required_fields] in Hfields, Hreq.
    repeat (apply andb_true_iff in Hfields as [? Hfields]).
    repeat (apply andb_true_iff in Hreq as [? Hreq]).
    cbn [getitem].
    rewrite (present_str_field "message_id" m),
      (present_str_field "content" m) by done.
    reflexivity. }
  split; [exact Hsingle|]. rewrite Hsingle. cbn [snd].
  unfold process_messages_batch, mbind, prog_bind, lift.
  rewrite (collect_conforming [m]) by (by apply Forall_singleton).
  cbn zeta. cbn [valid_messages message_ids contents metadatas app].
  rewrite filter_cons, filter_nil.
  destruct (decide (valid_record m = true)) as [Hvalid|Hinvalid].
  - rewrite Hvalid. reflexivity.
  - destruct (valid_record m); [done | reflexivity].
Qed.

End Processor.

Lemma validate_message_missing_field_witness :
  validate_message [("message_id", VStr "msg_000"); ("content", VNone)]
  = Return false.
Proof.
  apply (validate_message_missing_field _ "url"); [|reflexivity].
  apply list_elem_of_In. cbn. tauto.
Defined.

Lemma validate_message_blank_content_witness :
  validate_message
    [("message_id", VStr "msg_002"); ("url", VStr ""); ("author", VStr "");
     ("timestamp", VStr ""); ("content", VStr "   ")]
  = Return false.
Proof.
  rewrite (validate_message_blank_content _ "   "); [reflexivity | | reflexivity].
  intros field Hfield. apply list_elem_of_In in Hfield. cbn in Hfield.
  destruct Hfield as [<-|[<-|[<-|[<-|[<-|[]]]]]]; done.
Defined.

Lemma process_message_single_witness :
  let m := [("message_id", VStr "msg_003");
            ("url", VStr "https://example.com/3");
            ("author", VStr "Charlie");
            ("timestamp", VStr "2025-01-01T12:00:00Z");
            ("content", VStr "User feedback is positive.")] in
  rec_document <$> (process_message length_encoder m ∅).2 !! "msg_003"
  = Some "User feedback is positive.".
Proof.
  intros m.
  rewrite (proj1 (process_message_single length_encoder m ∅ eq_refl)).
  vm_compute. reflexivity.
Defined.

End MessageProcessorMore.

(** ** Search and query: what is returned and what is touched *)
Module QueryEngineMore.
Import VectorStore QueryEngine QuerySpec Fixtures MoreFixtures QueryEngineFacts.

Lemma substring_from_start (n : nat) :
  ∀ s : string,
    String.length (String.substring 0 n s) = Nat.min n (String.length s)
    ∧ ∃ rest, s = String.substring 0 n s +:+ rest.
Proof.
  induction n as [|n IH]; intros s.
  - destruct s; cbn [String.substring]; (split; [done | by eexists]).
  - destruct s as [|a s]; cbn [String.substring].
    + split; [done | by exists ""].
    + destruct (IH s) as [Hlen [rest Hrest]]. split.
      * cbn [String.length]. rewrite Hlen. done.
      * exists rest. rewrite append_cons. by f_equal.
Qed.

Lemma length_append (a b : string) :
  String.length (a +:+ b) = (String.length a + String.length b)%nat.
Proof.
  induction a as [|x a IH]; [done|]. rewrite append_cons.
  cbn [String.length]. by rewrite IH.
Qed.

(** X19.  The preview of a source: a content of at most 100 characters
    is shown whole; a longer one is cut to its first 100 characters
    followed by three dots, 103 characters in all.  No preview is longer
    than 103 characters. *)
Theorem preview_length (content : string) :
  ((String.length content ≤ 100)%nat → preview content = content)
  ∧ ((100 < String.length content)%nat →
     String.length (preview content) = 103%nat
     ∧ ∃ head rest,
         String.length head = 100%nat
         ∧ content = head +:+ rest
         ∧ preview content = head +:+ "...")
  ∧ (String.length (preview content) ≤ 103)%nat.
Proof.
  unfold preview.
  destruct (substring_from_start 100 content) as [Hlen [rest Hrest]].
  destruct (100 <? String.length content)%nat eqn:Hlong.
  - apply Nat.ltb_lt in Hlong. rewrite length_append, Hlen.
    cbn [String.length]. split; [lia|]. split; [|lia].
    intros _. split; [lia|].
    exists (String.substring 0 100 content), rest.
    split; [lia|]. by split.
  - apply Nat.ltb_ge in Hlong. split; [done|]. split; [lia | lia].
Qed.

Lemma sources_align (results : list search_result) :
  Forall2 (λ s result,
             source_score s = score result
             ∧ content_preview s = preview (content result))
    (make_source <$> results) results.
Proof.
  induction results as [|result results IH]; [constructor|].
  cbn [fmap list_fmap]. by constructor.
Qed.

Section Engine.
Context {L : Type}.
Variable encode : string → embedding.
Variable collection_query : collection → list embedding → Z → query_result.
Variable llm_complete : string → string → L → outcome string * L.
Variable str_format : string → string → string → string.
Variable py_str : value → string.

Abbreviation search := (search encode collection_query).
Abbreviation query :=
  (query encode collection_query llm_complete str_format py_str).

Implicit Types (w : @world L) (e : engine).

(** X20.  On an answer of the index whose parts run parallel, [search]
    returns, in the order of the index, exactly the neighbours whose
    similarity [1 - distance] is not below [min_similarity]: every result
    passes the threshold and no neighbour that passes is left out.
    Without a threshold every neighbour is returned. *)
Theorem search_returns_similar (question : string) (k : Z) (min : option Q)
    (c : collection) :
  let raw := collection_query c [encode question] k in
  well_formed raw = true →
  ∃ results,
    search question k min c = Return results
    ∧ results = List.filter (passes min) (candidates raw)
    ∧ Forall (λ r, passes min r = true) results
    ∧ (∀ r, r ∈ candidates raw → passes min r = true → r ∈ results)
    ∧ (min = None → results = candidates raw).
Proof.
  intros raw Hwf. eexists. split; [by apply search_spec|].
  split; [reflexivity|]. split; [|split].
  - apply Forall_forall. intros r Hr%list_elem_of_In%filter_In.
    by destruct Hr.
  - intros r Hr Hpass. apply list_elem_of_In, filter_In.
    split; [by apply list_elem_of_In | done].
  - intros ->. apply forallb_filter_id. by apply forallb_forall.
Qed.

(** X21.  What a query touches.  [query] never changes the vector
    store; it calls the LLM at most once, and not at all exactly when it
    returns a response without sources.  A response has one source per
    result of its context, in the same order, each with the score and the
    preview of its result; and when it has sources, its [num_sources] is
    their number. *)
Theorem query_effects (question : string) e w :
  let r := query question e w in
  vector_store r.2 = vector_store w
  ∧ (llm_calls r.2 = llm_calls w ∨ llm_calls r.2 = S (llm_calls w))
  ∧ (llm_calls r.2 = llm_calls w → r.2 = w)
  ∧ ∀ resp, r.1 = Return resp →
      (sources resp = [] ↔ llm_calls r.2 = llm_calls w)
      ∧ Forall2 (λ s result,
                   source_score s = score result
                   ∧ content_preview s = preview (content result))
          (sources resp) (context_used resp)
      ∧ (sources resp ≠ [] → num_sources resp = Some (length (sources resp))).
Proof.
  intros r. subst r.
  unfold QueryEngine.query, vector_store_search, mbind, prog_bind.
  destruct (VectorStore.search _ _ _ _ _ _) as [results|err]; cbn [fst snd].
  2:{ split; [done|]. split; [by left|]. by split. }
  destruct results as [|result results]; cbn [fst snd].
  { split; [done|]. split; [by left|]. split; [done|].
    intros resp [= <-]. cbn [sources context_used num_sources].
    split; [done|]. split; [constructor | done]. }
  unfold complete.
  destruct (llm_complete _ _ _) as [[a|err] l]; cbn [fst snd llm_calls
    vector_store].
  - split; [done|]. split; [by right|]. split; [intros H; cbn in H; lia|].
    intros resp [= <-]. cbn [sources context_used num_sources].
    split; [|split; [|done]].
    + split; [done | intros H; cbn in H; lia].
    + apply (sources_align (result :: results)).
  - split; [done|]. split; [by right|]. split; [intros H; cbn in H; lia | done].
Qed.

(** X22.  [query] suppresses no failure.  An exception raised by the
    search comes out unchanged, with the LLM not called and nothing
    changed.  When the search found results and the LLM call raises, that
    exception comes out unchanged, after exactly one call; no response is
    returned. *)
Theorem query_propagates_failures (question : string) e w (err : exn) :
  (search question (top_k e) (Some (min_similarity e)) (vector_store w)
     = Raise err →
   query question e w = (Raise err, w))
  ∧ (∀ results l',
       results ≠ [] →
       search question (top_k e) (Some (min_similarity e)) (vector_store w)
         = Return results →
       llm_complete
         (str_format (query_template e) (_format_context py_str results)
            question)
         (system_prompt e) (llm_client w) = (Raise err, l') →
       query question e w
       = (Raise err,
          {| llm_client := l';
             llm_calls := S (llm_calls w);
             vector_store := vector_store w |})).
Proof.
  split.
  - intros Hsearch.
    unfold QueryEngine.query, vector_store_search, mbind, prog_bind.
    by rewrite Hsearch.
  - intros results l' Hne Hsearch Hllm.
    unfold QueryEngine.query, vector_store_search, mbind, prog_bind.
    rewrite Hsearch. destruct results as [|result results]; [done|].
    unfold complete. by rewrite Hllm.
Qed.

End Engine.

Lemma search_returns_similar_witness :
  ∃ results,
    VectorStore.search no_embedding two_hits "budget" 3 (Some (7 # 10)%Q) ∅
      = Return results
    ∧ result_id <$> results = ["msg_001"].
Proof.
  destruct (search_returns_similar no_embedding two_hits "budget" 3
              (Some (7 # 10)%Q) ∅ eq_refl) as (results & Hrun & -> & _).
  exists (List.filter (passes (Some (7 # 10)%Q))
            (candidates (two_hits ∅ [no_embedding "budget"] 3))).
  split; [exact Hrun | reflexivity].
Defined.

Lemma preview_length_witness :
  preview "We need to discuss the budget." = "We need to discuss the budget.".
Proof.
  destruct (preview_length "We need to discuss the budget.") as [Hshort _].
  apply Hshort. vm_compute. lia.
Defined.

Lemma query_effects_witness :
  ∃ resp,
    (query no_embedding two_hits canned_llm plain_format no_str
       "What was discussed about the budget?" (engine_at (7 # 10))
       fresh_world).1 = Return resp
    ∧ num_sources resp = Some (length (sources resp)).
Proof.
  eexists. split; [vm_compute; reflexivity|].
  destruct (query_effects no_embedding two_hits canned_llm plain_format
              no_str "What was discussed about the budget?"
              (engine_at (7 # 10)) fresh_world) as (_ & _ & _ & Hresp).
  eapply Hresp; [vm_compute; reflexivity | discriminate].
Defined.

Lemma query_propagates_failures_witness :
  query no_embedding two_hits refusing_llm plain_format no_str
    "What was discussed about the budget?" (engine_at (7 # 10)) fresh_world
  = (Raise (mk_exn RateLimitError "Rate limit exceeded"),
     {| llm_client := 1%nat; llm_calls := 1%nat; vector_store := ∅ |}).
Proof.
  destruct (query_propagates_failures no_embedding two_hits refusing_llm
              plain_format no_str "What was discussed about the budget?"
              (engine_at (7 # 10)) fresh_world
              (mk_exn RateLimitError "Rate limit exceeded")) as [_ Hllm].
  eapply Hllm; [| vm_compute; reflexivity | vm_compute; reflexivity].
  discriminate.
Defined.

(** *** The context handed to the LLM *)

(** A part in the middle of a joined list: what comes before it is the
    join of the parts before it and, if there are any, the separator. *)
Lemma join_middle (sep : string) (before after : list string) (part : string) :
  join sep (before ++ part :: after)
  = join sep before
    +:+ match before with [] => "" | _ :: _ => sep end
    +:+ part
    +:+ match after with [] => "" | _ :: _ => sep +:+ join sep after end.
Proof.
  induction before as [|p before IH].
  - destruct after as [|q after].
    + cbn [app join]. by rewrite append_empty_r.
    + reflexivity.
  - destruct before as [|q before].
    + change (join sep ([p] ++ part :: after))
        with (p +:+ sep +:+ join sep ([] ++ part :: after)).
      rewrite IH. cbn [join]. reflexivity.
    + change (join sep ((p :: q :: before) ++ part :: after))
        with (p +:+ sep +:+ join sep ((q :: before) ++ part :: after)).
      rewrite IH.
      change (join sep (p :: q :: before))
        with (p +:+ sep +:+ join sep (q :: before)).
      by rewrite !append_assoc.
Qed.

Section Context.
Variable py_str : value → string.

(** X23.  Where each retrieved message sits in the context built for the
    LLM.  For the [i]-th result (counted from 0) the context is: the
    context of the [i] results before it; a newline, unless it is the
    first; its block, headed [Message i+1:], with its author, timestamp
    and URL lines and the line [Content: ] followed by its whole content;
    and what follows, which is empty when the result is the last one.
    So the blocks come in the order of the results, numbered from 1, each
    content under its own heading and none cut or left out. *)
Theorem context_holds_every_result (results : list search_result) (i : nat)
    (result : search_result) :
  results !! i = Some result →
  ∃ after,
    _format_context py_str results
    = _format_context py_str (take i results)
      +:+ match i with O => "" | S _ => nl end
      +:+ "Message " +:+ pretty (S i) +:+ ":" +:+ nl
      +:+ "Author: "
      +:+ fmt py_str (metadata_get (metadata result) "author" (VStr "Unknown"))
      +:+ nl
      +:+ "Timestamp: "
      +:+ fmt py_str (metadata_get (metadata result) "timestamp" (VStr ""))
      +:+ nl
      +:+ "URL: "
      +:+ fmt py_str (metadata_get (metadata result) "url" (VStr "")) +:+ nl
      +:+ "Content: " +:+ content result +:+ nl
      +:+ after
    ∧ (S i = length results → after = "").
Proof.
  intros Hi.
  pose proof (take_drop_middle results i result Hi) as Hsplit.
  assert (length (take i results) = i) as Hlen.
  { apply length_take_le. apply lookup_lt_Some in Hi. lia. }
  exists (match drop (S i) results with
          | [] => ""
          | _ :: _ =>
              nl +:+ join nl (imap (λ j r, context_part py_str (S (S (i + j))) r)
                                (drop (S i) results))
          end).
  split.
  - unfold _format_context. rewrite <- Hsplit at 1.
    rewrite imap_app, imap_cons, join_middle, Hlen, Nat.add_0_r.
    replace (imap ((λ n r, context_part py_str (S (i + n)) r) ∘ S)
               (drop (S i) results))
      with (imap (λ j r, context_part py_str (S (S (i + j))) r)
              (drop (S i) results))
      by (apply imap_ext; intros j r _; cbn; f_equal; lia).
    f_equal. f_equal.
    + destruct i as [|i].
      * by rewrite take_0.
      * destruct results as [|r results]; [done|]. reflexivity.
    + destruct (drop (S i) results) as [|r rest].
      * unfold context_part. cbv zeta. by rewrite !append_assoc.
      * set (following := imap _ (r :: rest)).
        destruct following as [|block following_blocks] eqn:Hfollowing;
          [done|].
        unfold context_part. cbv zeta. by rewrite !append_assoc.
  - intros Hlast. rewrite drop_ge by lia. reflexivity.
Qed.

End Context.

Lemma context_holds_every_result_witness :
  let results := candidates (two_hits ∅ [no_embedding "budget"] 3) in
  let result := candidate (two_hits ∅ [no_embedding "budget"] 3) 1 in
  results !! 1%nat = Some result
  ∧ ∃ after,
      _format_context no_str results
      = _format_context no_str (take 1 results) +:+ nl
        +:+ "Message " +:+ pretty 2%nat +:+ ":" +:+ nl
        +:+ "Author: Bob" +:+ nl
        +:+ "Timestamp: 2025-01-01T11:00:00Z" +:+ nl
        +:+ "URL: https://example.com/msg_002" +:+ nl
        +:+ "Content: The new feature is ready for testing." +:+ nl
        +:+ after.
Proof.
  intros results result.
  assert (results !! 1%nat = Some result) as Hresult
    by (vm_compute; reflexivity).
  split; [exact Hresult|].
  destruct (context_holds_every_result no_str results 1 result Hresult)
    as (after & Hcontext & _).
  exists after. exact Hcontext.
Defined.

End QueryEngineMore.
